(** * TurkBBIai backend: admission control, credential rotation and the
      verification-code lifecycle of [projelerim/app.py]

    A shallow embedding of the policy logic of the Flask server: the
    per-client rate limiter ([check_rate_limit]), the round-robin credential
    rotator ([get_next_api_key]), the scrubbing of credentials from error
    text ([sanitize_error_message]), the verification-code store behind
    [/send-code] and [/verify-code], and the failover loop of [/chat].

    Modelling conventions.
    - The module-level globals [last_request_time], [current_key_index] and
      [verification_codes] are the three fields of [server_state]; every
      handler is a function from a state to a response and a new state.
    - What a handler reads from its environment (the request, the two
      clocks, the random digits, the answers of SMTP and of the upstream
      HTTP services) is an explicit argument.
    - [time.time()] is a rational number of seconds, and the arithmetic on
      clock readings is that of the rationals: it is the arithmetic of the
      interpreter, on binary64 numbers, wherever the results are binary64
      numbers themselves ([binary64] below), a threshold that is no binary64
      number or a rounded difference being outside the model.
      [datetime.now()] is an integer number of microseconds, the resolution
      of [datetime].
    - A Python [str] is a [string] of 8-bit characters (code points below
      256); JSON bodies are objects whose values are strings. *)

From Stdlib Require Import QArith Qround ZArith String Ascii List Lia Lqa.
From Stdlib Require Uint63.
From Stdlib Require Import PrimFloat.
From stdpp Require Import gmap strings list.
From Equations Require Import Equations.
From Equations.Prop Require Import Logic.

Local Open Scope string_scope.

(** ** Text primitives of Python used by the server *)

Module Py.

(** [str.isspace] on one character, for code points below 256. *)
Definition isspace (c : ascii) : bool :=
  let n := nat_of_ascii c in
  (((9 <=? n) && (n <=? 13)) || ((28 <=? n) && (n <=? 32))
   || (n =? 133) || (n =? 160))%nat.

Fixpoint lstrip (s : string) : string :=
  match s with
  | String c s' => if isspace c then lstrip s' else s
  | EmptyString => EmptyString
  end.

Definition rstrip (s : string) : string :=
  String.rev (lstrip (String.rev s)).

(** [s.strip()] *)
Definition strip (s : string) : string := rstrip (lstrip s).

(** [str.lower] on one character, for code points below 256: the ASCII
    capitals and the Latin-1 capitals 192..222 (not the sign 215). *)
Definition lower_char (c : ascii) : ascii :=
  let n := nat_of_ascii c in
  if (((65 <=? n) && (n <=? 90))
      || ((192 <=? n) && (n <=? 222) && negb (n =? 215)))%nat
  then ascii_of_nat (n + 32) else c.

(** [s.lower()] *)
Fixpoint lower (s : string) : string :=
  match s with
  | String c s' => String (lower_char c) (lower s')
  | EmptyString => EmptyString
  end.

(** [s.split(sep)[0]] for a one-character separator: the text before the
    first separator, the whole text when there is none. *)
Fixpoint split_first (sep : ascii) (s : string) : string :=
  match s with
  | String c s' =>
      if Ascii.eqb c sep then EmptyString else String c (split_first sep s')
  | EmptyString => EmptyString
  end.

(** Truth value of a string: [bool(s)]. *)
Definition truthy (s : string) : bool :=
  match s with EmptyString => false | _ => true end.

(** [c in s] for a single character. *)
Fixpoint has_char (c : ascii) (s : string) : bool :=
  match s with
  | String d s' => Ascii.eqb c d || has_char c s'
  | EmptyString => false
  end.

(** [old] occurs at the very start of [s]. *)
Fixpoint starts_with (old s : list ascii) : bool :=
  match old, s with
  | [], _ => true
  | a :: old', b :: s' => Ascii.eqb a b && starts_with old' s'
  | _ :: _, [] => false
  end.

(** [old in s]: [old] occurs somewhere in [s]. *)
Fixpoint occurs_in (old s : list ascii) : bool :=
  starts_with old s
  || match s with
     | [] => false
     | _ :: s' => occurs_in old s'
     end.

(** [s.replace(old, new)] on character lists. CPython scans from the left,
    replaces the leftmost occurrence and resumes after it, so occurrences
    never overlap; for an empty [old] it puts [new] before every character
    and at the end. *)
Equations? replace_chars (old new s : list ascii) : list ascii
  by wf (length s) lt :=
  replace_chars [] new s := new ++ flat_map (fun c => c :: new) s;
  replace_chars (a :: old') new [] := [];
  replace_chars (a :: old') new (c :: s') with starts_with (a :: old') (c :: s') => {
    | true := new ++ replace_chars (a :: old') new (skipn (length old') s');
    | false := c :: replace_chars (a :: old') new s' }.
Proof. all: try rewrite length_skipn; simpl; lia. Qed.

(** [s.replace(old, new)] *)
Definition replace (old new s : string) : string :=
  string_of_list_ascii
    (replace_chars (list_ascii_of_string old) (list_ascii_of_string new)
                   (list_ascii_of_string s)).

(** [sub in s] *)
Definition contains (s sub : string) : bool :=
  occurs_in (list_ascii_of_string sub) (list_ascii_of_string s).

End Py.

(** ** Configuration, requests and the process-wide state *)

(** The values read from the environment at start-up. [os.getenv] yields
    [None] for an unset variable. [RATE_LIMIT_*] went through [int]. *)
Record config := {
  GMAIL_SENDER : option string;
  GMAIL_APP_PASSWORD : option string;
  CREATOR_EMAIL_env : option string;
  API_KEYS : list string;
  RATE_LIMIT_CHAT : Z;
  RATE_LIMIT_IMAGE : Z;
  RATE_LIMIT_EMAIL : Z
}.

(** [CREATOR_EMAIL = os.getenv('CREATOR_EMAIL', '').lower()] *)
Definition CREATOR_EMAIL (cfg : config) : string :=
  Py.lower (default "" (CREATOR_EMAIL_env cfg)).

(** Truth value of an optional string: [None] and [''] are false. *)
Definition opt_truthy (o : option string) : bool :=
  match o with Some s => Py.truthy s | None => false end.

(** The value stored per email in [verification_codes]. *)
Record verification_record := {
  code : string;
  expires_at : Z
}.

(** What one request lets the handler observe: two headers of the request,
    the value of [request.json], and the readings of [time.time()]
    (seconds) and [datetime.now()] (microseconds) taken while it is served.
    [json] is [None] for the JSON body [null] and a map for a JSON object;
    for a request that carries no JSON at all [request.json] raises, and
    the handler is not run. *)
Record request := {
  x_forwarded_for : option string;
  remote_addr : option string;
  json : option (gmap string string);
  time_time : Q;
  datetime_now : Z
}.

(** The three module-level globals. [last_request_time] is a
    [defaultdict] of [defaultdict(float)]: client address, then endpoint. *)
Record server_state := {
  last_request_time : gmap string (gmap string Q);
  current_key_index : nat;
  verification_codes : gmap string verification_record
}.

Definition set_last_request_time
    (tbl : gmap string (gmap string Q)) (st : server_state) : server_state :=
  {| last_request_time := tbl;
     current_key_index := current_key_index st;
     verification_codes := verification_codes st |}.

Definition set_current_key_index (i : nat) (st : server_state) : server_state :=
  {| last_request_time := last_request_time st;
     current_key_index := i;
     verification_codes := verification_codes st |}.

Definition set_verification_codes
    (vc : gmap string verification_record) (st : server_state) : server_state :=
  {| last_request_time := last_request_time st;
     current_key_index := current_key_index st;
     verification_codes := vc |}.

(** ** Helper functions of the server *)

Definition get_client_ip (req : request) : string :=
  match x_forwarded_for req with
  | Some h =>
      if Py.truthy h then Py.strip (Py.split_first "," h)
      else match remote_addr req with
           | Some a => if Py.truthy a then a else "unknown"
           | None => "unknown"
           end
  | None =>
      match remote_addr req with
      | Some a => if Py.truthy a then a else "unknown"
      | None => "unknown"
      end
  end.

(** The time a [defaultdict] lookup would give for the pair: the stored
    value, [0.0] for a pair that was never stored. *)
Definition last_time (tbl : gmap string (gmap string Q))
    (client_ip endpoint : string) : Q :=
  match tbl !! client_ip with
  | Some per_ip => default 0%Q (per_ip !! endpoint)
  | None => 0%Q
  end.

(** [last_request_time[client_ip][endpoint]] as an expression: besides
    giving the value, the two [defaultdict]s store the default for a key
    that was missing. *)
Definition read_last_request_time (tbl : gmap string (gmap string Q))
    (client_ip endpoint : string) : Q * gmap string (gmap string Q) :=
  let per_ip := default ∅ (tbl !! client_ip) in
  let v := default 0%Q (per_ip !! endpoint) in
  (v, <[client_ip := <[endpoint := v]> per_ip]> tbl).

(** [last_request_time[client_ip][endpoint] = t] *)
Definition write_last_request_time (tbl : gmap string (gmap string Q))
    (client_ip endpoint : string) (t : Q) : gmap string (gmap string Q) :=
  <[client_ip := <[endpoint := t]> (default ∅ (tbl !! client_ip))]> tbl.

(** Returns the table and the pair [(allowed, remaining)]. The two
    differences are those of the rationals (see the conventions at the
    top): they are what the interpreter computes wherever its binary64
    results are exact. *)
Definition check_rate_limit (req : request)
    (tbl : gmap string (gmap string Q)) (endpoint : string) (limit_seconds : Z)
    : gmap string (gmap string Q) * (bool * Q) :=
  let client_ip := get_client_ip req in
  let current_time := time_time req in
  let '(last, tbl1) := read_last_request_time tbl client_ip endpoint in
  let elapsed := (current_time - last)%Q in
  if Qlt_le_dec elapsed (inject_Z limit_seconds) then
    let remaining := (inject_Z limit_seconds - elapsed)%Q in
    (tbl1, (false, remaining))
  else
    (write_last_request_time tbl1 client_ip endpoint current_time, (true, 0%Q)).

(** Returns the new [current_key_index] and the key there. [None] stands
    for the exception an empty [API_KEYS] would raise in [%]. *)
Definition get_next_api_key (keys : list string) (index : nat)
    : option (nat * string) :=
  match length keys with
  | O => None
  | S _ =>
      let index' := ((index + 1) mod length keys)%nat in
      match keys !! index' with
      | Some key => Some (index', key)
      | None => None
      end
  end.

(** [string.digits] *)
Definition digits : string := "0123456789".

(** [''.join(random.choices(string.digits, k=6))]. [choice i] is the
    position in [string.digits] drawn for the [i]-th character. *)
Definition generate_verification_code (choice : nat -> fin 10) : string :=
  string_of_list_ascii
    (map (fun i => default "0"%char (String.get (fin_to_nat (choice i)) digits))
         (seq 0 6)).

Definition HIDDEN : string := "***HIDDEN***".

(** The loop over [API_KEYS], then the Gmail password when it is set. *)
Definition sanitize_error_message (cfg : config) (error_str : string) : string :=
  let error_str :=
    fold_left (fun acc key => Py.replace key HIDDEN acc) (API_KEYS cfg) error_str in
  match GMAIL_APP_PASSWORD cfg with
  | Some pw =>
      if Py.truthy pw then Py.replace pw HIDDEN error_str else error_str
  | None => error_str
  end.

(** ** The verification-code endpoints *)

(** What [smtplib] did with the message. *)
Inductive smtp_result :=
| SmtpSent
| SmtpError (e : string).

(** The responses of [/send-code], one constructor per [return]. *)
Inductive send_response :=
| SendRateLimited (remaining : Q)
| SendEmailRequired
| SendInvalidEmail
| SendNotConfigured
| SendCodeSent
| SendDeliveryFailure.

Definition send_status (r : send_response) : Z :=
  match r with
  | SendRateLimited _ => 429
  | SendEmailRequired | SendInvalidEmail => 400
  | SendNotConfigured | SendDeliveryFailure => 500
  | SendCodeSent => 200
  end.

(** [timedelta(minutes=10)] in microseconds. *)
Definition ten_minutes : Z := 600000000.

(** [smtp recipient code] is the outcome of building and sending the
    message that carries [code] to [recipient]. *)
Definition send_code (cfg : config) (req : request) (choice : nat -> fin 10)
    (smtp : string -> string -> smtp_result) (st : server_state)
    : send_response * server_state :=
  let '(tbl, (allowed, remaining)) :=
    check_rate_limit req (last_request_time st) "email" (RATE_LIMIT_EMAIL cfg) in
  let st := set_last_request_time tbl st in
  if negb allowed then (SendRateLimited remaining, st)
  else
    match json req with
    | None => (SendEmailRequired, st)
    | Some data =>
        if bool_decide (data = ∅) || bool_decide (data !! "email" = None)
        then (SendEmailRequired, st)
        else
          let email := Py.strip (default "" (data !! "email")) in
          if negb (Py.truthy email) || negb (Py.has_char "@" email)
          then (SendInvalidEmail, st)
          else
            let c := generate_verification_code choice in
            let st :=
              set_verification_codes
                (<[email := {| code := c;
                               expires_at := (datetime_now req + ten_minutes)%Z |}]>
                   (verification_codes st)) st in
            if negb (opt_truthy (GMAIL_SENDER cfg))
               || negb (opt_truthy (GMAIL_APP_PASSWORD cfg))
            then (SendNotConfigured, st)
            else
              match smtp email c with
              | SmtpSent => (SendCodeSent, st)
              | SmtpError _ => (SendDeliveryFailure, st)
              end
    end.

(** The responses of [/verify-code], one constructor per [return]. *)
Inductive verify_response :=
| VerifyInvalidRequest
| VerifyMissingFields
| NoSuchCode
| Expired
| Mismatch
| Success (is_creator : bool).

Definition verify_status (r : verify_response) : Z :=
  match r with
  | Success _ => 200
  | _ => 400
  end.

Definition verify_code (cfg : config) (req : request) (st : server_state)
    : verify_response * server_state :=
  match json req with
  | None => (VerifyInvalidRequest, st)
  | Some data =>
      if bool_decide (data = ∅) then (VerifyInvalidRequest, st)
      else
        let email := Py.strip (default "" (data !! "email")) in
        let c := Py.strip (default "" (data !! "code")) in
        if negb (Py.truthy email) || negb (Py.truthy c)
        then (VerifyMissingFields, st)
        else
          match verification_codes st !! email with
          | None => (NoSuchCode, st)
          | Some stored =>
              if (datetime_now req >? expires_at stored)%Z then
                (Expired,
                 set_verification_codes (delete email (verification_codes st)) st)
              else if negb (String.eqb (code stored) c) then (Mismatch, st)
              else
                let is_creator := String.eqb (Py.lower email) (CREATOR_EMAIL cfg) in
                (Success is_creator,
                 set_verification_codes (delete email (verification_codes st)) st)
          end
  end.

(** ** The chat endpoint and its failover loop *)

(** What [requests.post] did: an HTTP response, with the text found at
    [candidates[0].content.parts[0].text] of its JSON body when there is
    one; [requests.exceptions.Timeout]; any other exception. *)
Inductive upstream_reply :=
| Reply (status_code : Z) (text : option string)
| TimeoutError
| OtherError (e : string).

(** The responses of [/chat], one constructor per [return], and
    [ChatInternalError] for an exception that leaves the handler. *)
Inductive chat_response :=
| ChatRateLimited (remaining : Q)
| ChatMessageRequired
| ChatEmptyMessage
| Succeeded (ai_response : string)
| UpstreamOtherFailure
| UpstreamTimeout
| UnexpectedFailure
| Exhausted
| ChatInternalError.

Definition chat_status (r : chat_response) : Z :=
  match r with
  | ChatRateLimited _ => 429
  | ChatMessageRequired | ChatEmptyMessage => 400
  | Succeeded _ => 200
  | UpstreamOtherFailure | UpstreamTimeout | UnexpectedFailure => 500
  | Exhausted => 503
  | ChatInternalError => 500
  end.

(** The variables of the [while] loop, the global [current_key_index]
    among them, and the keys of the requests posted so far. *)
Record loop_state := {
  attempt : nat;
  index : nat;
  api_key : string;
  posted : list string
}.

Section ChatLoop.

(** The loaded keys, the message of the request, and the upstream:
    [upstream n key message] is what the [n]-th [requests.post] of this
    request (counted from 0) does when it carries [key]. *)
Variable keys : list string.
Variable message : string.
Variable upstream : nat -> string -> string -> upstream_reply.

Definition set_posted (p : list string) (ls : loop_state) : loop_state :=
  {| attempt := attempt ls; index := index ls;
     api_key := api_key ls; posted := p |}.

(** [api_key = get_next_api_key(); attempt += 1]. An exception of
    [get_next_api_key] (only an empty key list raises one, and with an
    empty list the loop body is never entered) is given as [None]. *)
Definition rotate (ls : loop_state) : option loop_state :=
  match get_next_api_key keys (index ls) with
  | Some (i, k) =>
      Some {| attempt := S (attempt ls); index := i;
              api_key := k; posted := posted ls |}
  | None => None
  end.

(** The body shared by the two [except] clauses: rotate and go round
    again, unless this was the last attempt. An exception raised inside
    an [except] clause leaves the handler. *)
Definition on_exception (final : chat_response) (ls : loop_state)
    : loop_state + chat_response * loop_state :=
  if (attempt ls <? length keys - 1)%nat then
    match rotate ls with
    | Some ls' => inl ls'
    | None => inr (ChatInternalError, ls)
    end
  else inr (final, ls).

(** One pass through the body of the [while] loop: either the variables
    for the next pass, or the response that is returned. *)
Definition iteration (ls : loop_state)
    : loop_state + chat_response * loop_state :=
  let reply := upstream (length (posted ls)) (api_key ls) message in
  let ls := set_posted (posted ls ++ [api_key ls]) ls in
  match reply with
  | Reply status_code text =>
      if (status_code =? 429)%Z then
        match rotate ls with
        | Some ls' => inl ls'
        | None => on_exception UnexpectedFailure ls
        end
      else if negb (status_code =? 200)%Z then inr (UpstreamOtherFailure, ls)
      else
        match text with
        | Some ai_response => inr (Succeeded ai_response, ls)
        | None => on_exception UnexpectedFailure ls
        end
  | TimeoutError => on_exception UpstreamTimeout ls
  | OtherError _ => on_exception UnexpectedFailure ls
  end.

(** [while attempt < len(API_KEYS): ...], then the [return] after the
    loop. Every pass that does not return adds one to [attempt]. *)
Equations? chat_loop (ls : loop_state) : chat_response * loop_state
  by wf (length keys - attempt ls) lt :=
  chat_loop ls with inspect (attempt ls <? length keys)%nat => {
    | exist _ false _ := (Exhausted, ls);
    | exist _ true Hlt with inspect (iteration ls) => {
        | exist _ (inr res) _ := res;
        | exist _ (inl ls') Hit := chat_loop ls' } }.
Proof.
  apply Nat.ltb_lt in Hlt.
  assert (Hrot : forall l l', rotate l = Some l' -> attempt l' = S (attempt l)).
  { intros l l'. unfold rotate.
    destruct (get_next_api_key keys (index l)) as [[i k]|]; [|discriminate].
    intros [= <-]. reflexivity. }
  enough (attempt ls' = S (attempt ls)) by lia.
  revert Hit. unfold iteration, on_exception.
  repeat match goal with
         | |- context [match ?x with _ => _ end] =>
             match x with
             | rotate _ => destruct x eqn:?
             | _ => destruct x
             end
         end; intros [= <-];
    match goal with H : rotate _ = Some _ |- _ => apply Hrot in H end;
    assumption.
Qed.

End ChatLoop.

(** Lines 344-415 of [chat]: [attempt = 0], the key under the cursor, the
    loop. Gives the response, the cursor left in [current_key_index] and
    the keys of the requests posted, in order. Indexing [API_KEYS] out of
    range raises, and the exception leaves the handler. *)
Definition chat_failover (keys : list string) (message : string)
    (upstream : nat -> string -> string -> upstream_reply) (current : nat)
    : chat_response * nat * list string :=
  match keys !! current with
  | None => (ChatInternalError, current, [])
  | Some key =>
      let '(resp, ls) :=
        chat_loop keys message upstream
          {| attempt := 0; index := current; api_key := key; posted := [] |} in
      (resp, index ls, posted ls)
  end.

Definition chat (cfg : config) (req : request)
    (upstream : nat -> string -> string -> upstream_reply) (st : server_state)
    : chat_response * server_state :=
  let '(tbl, (allowed, remaining)) :=
    check_rate_limit req (last_request_time st) "chat" (RATE_LIMIT_CHAT cfg) in
  let st := set_last_request_time tbl st in
  if negb allowed then (ChatRateLimited remaining, st)
  else
    match json req with
    | None => (ChatMessageRequired, st)
    | Some data =>
        if bool_decide (data = ∅) || bool_decide (data !! "message" = None)
        then (ChatMessageRequired, st)
        else
          let message := Py.strip (default "" (data !! "message")) in
          if negb (Py.truthy message) then (ChatEmptyMessage, st)
          else
            let '(resp, current, _) :=
              chat_failover (API_KEYS cfg) message upstream (current_key_index st) in
            (resp, set_current_key_index current st)
    end.

(** ** The image and health endpoints *)

(** What [requests.get] did: an HTTP response with its content, a
    timeout, or any other exception. [response.ok] of the requests
    library is false exactly for a status from 400 to 599. *)
Inductive image_reply :=
| ImageReply (status_code : Z) (content : string)
| ImageTimeoutError
| ImageOtherError (e : string).

(** The responses of [/generate-image]. [ImageOk] carries the content
    that the handler then encodes in base 64. *)
Inductive image_response :=
| ImageRateLimited (remaining : Q)
| ImagePromptRequired
| ImageEmptyPrompt
| ImageServiceLoading
| ImageFailed
| ImageOk (content : string)
| ImageTimeout
| ImageUnexpectedFailure.

Definition image_status (r : image_response) : Z :=
  match r with
  | ImageRateLimited _ => 429
  | ImagePromptRequired | ImageEmptyPrompt => 400
  | ImageServiceLoading => 503
  | ImageFailed | ImageTimeout | ImageUnexpectedFailure => 500
  | ImageOk _ => 200
  end.

Definition generate_image (cfg : config) (req : request)
    (upstream : string -> image_reply) (st : server_state)
    : image_response * server_state :=
  let '(tbl, (allowed, remaining)) :=
    check_rate_limit req (last_request_time st) "image" (RATE_LIMIT_IMAGE cfg) in
  let st := set_last_request_time tbl st in
  if negb allowed then (ImageRateLimited remaining, st)
  else
    match json req with
    | None => (ImagePromptRequired, st)
    | Some data =>
        if bool_decide (data = ∅) || bool_decide (data !! "prompt" = None)
        then (ImagePromptRequired, st)
        else
          let prompt := Py.strip (default "" (data !! "prompt")) in
          if negb (Py.truthy prompt) then (ImageEmptyPrompt, st)
          else
            match upstream prompt with
            | ImageReply status_code content =>
                if (status_code =? 503)%Z then (ImageServiceLoading, st)
                else if ((400 <=? status_code) && (status_code <? 600))%Z
                then (ImageFailed, st)
                else (ImageOk content, st)
            | ImageTimeoutError => (ImageTimeout, st)
            | ImageOtherError _ => (ImageUnexpectedFailure, st)
            end
    end.

(** [/health]: the number of loaded keys; no state is touched. *)
Definition health_check (cfg : config) (st : server_state) : nat * server_state :=
  (length (API_KEYS cfg), st).

(** ** Notions used to state the properties *)

(** The cursor after [n] calls of [get_next_api_key]. *)
Fixpoint advance_times (keys : list string) (n index : nat) : option nat :=
  match n with
  | O => Some index
  | S n' =>
      match get_next_api_key keys index with
      | Some (index', _) => advance_times keys n' index'
      | None => None
      end
  end.


(** [limit_seconds - (current_time - last_time)] of lines 123-126 in the
    arithmetic of the interpreter: the integer is converted to binary64,
    rounding to nearest, and both subtractions round. Covers a threshold
    from 0 to 2^63 - 1; [None] is a threshold outside of that. *)
Definition remaining_binary64 (current_time last_time : PrimFloat.float)
    (limit_seconds : Z) : option PrimFloat.float :=
  if ((0 <=? limit_seconds) && (limit_seconds <? 2 ^ 63))%Z then
    Some (PrimFloat.sub (PrimFloat.of_uint63 (Uint63.of_Z limit_seconds))
                        (PrimFloat.sub current_time last_time))
  else None.


(** A request from the peer address [client] that carries no forwarding
    header, with its body and the two clock readings. *)
Definition request_at (client : string) (body : option (gmap string string))
    (seconds : Q) (microseconds : Z) : request :=
  {| x_forwarded_for := None; remote_addr := Some client; json := body;
     time_time := seconds; datetime_now := microseconds |}.

(** A configuration with three keys and the default thresholds. *)
Definition example_config : config :=
  {| GMAIL_SENDER := Some "bot@gmail.com";
     GMAIL_APP_PASSWORD := Some "abcdabcdabcdabcd";
     CREATOR_EMAIL_env := Some "Boss@X.com";
     API_KEYS := ["K1"; "K2"; "K3"];
     RATE_LIMIT_CHAT := 2;
     RATE_LIMIT_IMAGE := 5;
     RATE_LIMIT_EMAIL := 30 |}.

(** The body of a [/verify-code] request. *)
Definition verify_body (email c : string) : option (gmap string string) :=
  Some (<["email" := email]> {["code" := c]}).

(** The body of a [/send-code] request. *)
Definition send_body (email : string) : option (gmap string string) :=
  Some {["email" := email]}.

(** A state with no rate-limit history, the cursor at 0 and the given
    pending codes. *)
Definition state_with (vc : gmap string verification_record) : server_state :=
  {| last_request_time := ∅; current_key_index := 0; verification_codes := vc |}.

(** The keys [n] successive attempts carry, starting at cursor [current]. *)
Definition rotation (keys : list string) (current n : nat) : list string :=
  omap (fun j => keys !! ((current + j) mod length keys)%nat) (seq 0 n).

(** The check a handler runs on the table of the state. *)
Definition rate_limit_of (req : request) (st : server_state)
    (endpoint : string) (limit_seconds : Z) :=
  check_rate_limit req (last_request_time st) endpoint limit_seconds.

(** The reply is the quota-exhausted signal: an HTTP response with
    status 429. *)
Definition quota_exhausted (r : upstream_reply) : bool :=
  match r with
  | Reply status_code _ => (status_code =? 429)%Z
  | _ => false
  end.

(** The replies after which the loop goes round again when they come on
    attempt [k] (counted from 0) with [n] keys loaded: always for status
    429; for a timeout, for any other exception and for a 200 without the
    expected text only when it is not the last attempt. *)
Definition retried (n k : nat) (r : upstream_reply) : bool :=
  match r with
  | Reply status_code text =>
      (status_code =? 429)%Z
      || ((status_code =? 200)%Z && bool_decide (text = None) && (k <? n - 1)%nat)
  | TimeoutError | OtherError _ => (k <? n - 1)%nat
  end.

(** The loop variables at the start of attempt [k] when the request found
    the cursor at [current] and every attempt before was retried. *)
Definition at_attempt (keys : list string) (current k : nat) (ls : loop_state) : Prop :=
  attempt ls = k /\
  index ls = ((current + k) mod length keys)%nat /\
  keys !! index ls = Some (api_key ls) /\
  posted ls = rotation keys current k.

(** The loop variables after one more rotation. *)
Definition next_attempt (keys : list string) (ls : loop_state) : loop_state :=
  {| attempt := S (attempt ls);
     index := ((index ls + 1) mod length keys)%nat;
     api_key := default "" (keys !! ((index ls + 1) mod length keys)%nat);
     posted := posted ls ++ [api_key ls] |}.

(** The text of a field of the JSON body, [''] when it is missing. *)
Definition json_field (req : request) (name : string) : string :=
  match json req with
  | Some data => default "" (data !! name)
  | None => ""
  end.

(** The request asks to verify [c] for [email]: both fields are there and
    neither is blank. *)
Definition asks_to_verify (req : request) (email c : string) : Prop :=
  Py.strip (json_field req "email") = email /\
  Py.strip (json_field req "code") = c /\
  email <> "" /\ c <> "".

(** The responses of [/send-code] that come after the record was stored. *)
Definition stores_code (r : send_response) : bool :=
  match r with
  | SendNotConfigured | SendCodeSent | SendDeliveryFailure => true
  | _ => false
  end.

(** Equality of two strings up to the case of their characters. *)
Fixpoint caseless_eq (a b : string) : bool :=
  match a, b with
  | EmptyString, EmptyString => true
  | String x a', String y b' =>
      Ascii.eqb (Py.lower_char x) (Py.lower_char y) && caseless_eq a' b'
  | _, _ => false
  end.

(** A credential the marker cannot rebuild: it has no asterisk and is not
    a part of the word between the asterisks (so it is not empty). *)
Definition marker_free (k : string) : Prop :=
  Py.has_char "*" k = false /\ Py.contains "HIDDEN" k = false.

(** The same on character lists. *)
Definition safe (k : list ascii) : Prop :=
  ("*"%char ∉ k) /\ Py.occurs_in k (list_ascii_of_string "HIDDEN") = false.

(** ** Start-up and the remaining notions *)

(** [s.split(sep)] for a one-character separator: the pieces between the
    separators, empty pieces included; one empty piece for an empty text. *)
Fixpoint py_split (sep : ascii) (s : string) : list string :=
  match s with
  | EmptyString => [EmptyString]
  | String c s' =>
      if Ascii.eqb c sep then EmptyString :: py_split sep s'
      else
        match py_split sep s' with
        | piece :: pieces => String c piece :: pieces
        | [] => [String c EmptyString]
        end
  end.

(** Lines 63-71: [GEMINI_API_KEYS] is read with the default [''], split at
    the commas, and the pieces that are not blank are kept, stripped.
    [None] stands for [sys.exit(1)], on an unset or empty variable and on a
    variable with blank pieces only. *)
Definition load_api_keys (env : option string) : option (list string) :=
  let API_KEYS_STR := default "" env in
  if negb (Py.truthy API_KEYS_STR) then None
  else
    let keys :=
      map Py.strip
          (filter (fun key => Py.truthy (Py.strip key) = true)
                  (py_split "," API_KEYS_STR)) in
    match keys with
    | [] => None
    | _ :: _ => Some keys
    end.

(** [int(remaining)], the number of seconds the rate-limited responses
    print: the integer part, rounding towards zero. *)
Definition shown_seconds (remaining : Q) : Z :=
  Z.quot (Qnum remaining) (Zpos (Qden remaining)).

(** One of the ten characters of [string.digits]. *)
Definition is_digit (c : ascii) : bool :=
  ((48 <=? nat_of_ascii c) && (nat_of_ascii c <=? 57))%nat.

(** Every character of the string is a digit. *)
Fixpoint all_digits (s : string) : bool :=
  match s with
  | EmptyString => true
  | String c s' => is_digit c && all_digits s'
  end.

(** A run of [/verify-code] requests served one after the other; gives the
    responses in order and the final state. *)
Fixpoint verify_all (cfg : config) (reqs : list request) (st : server_state)
    : list verify_response * server_state :=
  match reqs with
  | [] => ([], st)
  | req :: reqs' =>
      let '(r, st1) := verify_code cfg req st in
      let '(rs, st2) := verify_all cfg reqs' st1 in
      (r :: rs, st2)
  end.

(** The response that ends the request when the reply [r] is the one
    that ends the loop. A 429 ends the loop only by running it out of
    attempts, which is reported after the loop. *)
Definition ending_response (r : upstream_reply) : chat_response :=
  match r with
  | Reply status_code text =>
      if (status_code =? 429)%Z then Exhausted
      else if negb (status_code =? 200)%Z then UpstreamOtherFailure
      else
        match text with
        | Some ai_response => Succeeded ai_response
        | None => UnexpectedFailure
        end
  | TimeoutError => UpstreamTimeout
  | OtherError _ => UnexpectedFailure
  end.

(** * Properties *)

Example strip_example : Py.strip "  a@x.com " = "a@x.com".
Proof. reflexivity. Qed.

Example lower_example : Py.lower "Boss@X.Com" = "boss@x.com".
Proof. reflexivity. Qed.

Example replace_example : Py.replace "ab" "-" "xababcab" = "x--c-".
Proof. reflexivity. Qed.

Example replace_empty_example : Py.replace "" "-" "ab" = "-a-b-".
Proof. reflexivity. Qed.

Example replace_overlap_example : Py.replace "aa" "b" "aaa" = "ba".
Proof. reflexivity. Qed.

Example chat_three_keys :
  chat_failover ["K1"; "K2"; "K3"] "hi"
    (fun n key _ => if String.eqb key "K3" then Reply 200 (Some "hello")
                    else Reply 429 None) 0
  = (Succeeded "hello", 2%nat, ["K1"; "K2"; "K3"]).
Proof. vm_compute. reflexivity. Qed.

Example rotation_example : rotation ["K1"; "K2"; "K3"] 1 3 = ["K2"; "K3"; "K1"].
Proof. reflexivity. Qed.

(** ** The credential rotator *)

Section Rotator.

Variable keys : list string.

Lemma get_next_api_key_valid (i : nat) :
  (0 < length keys)%nat ->
  exists key,
    keys !! ((i + 1) mod length keys)%nat = Some key /\
    get_next_api_key keys i = Some (((i + 1) mod length keys)%nat, key).
Proof.
  intros Hpos.
  assert (Hlt : ((i + 1) mod length keys < length keys)%nat)
    by (apply Nat.mod_upper_bound; lia).
  destruct (lookup_lt_is_Some_2 keys _ Hlt) as [key Hkey].
  exists key. split; [exact Hkey|].
  unfold get_next_api_key.
  destruct (length keys) eqn:Hlen; [lia|].
  rewrite Hkey. reflexivity.
Qed.

Lemma advance_times_closed_form (n i : nat) :
  (i < length keys)%nat ->
  advance_times keys n i = Some ((i + n) mod length keys)%nat.
Proof.
  revert i. induction n as [|n IH]; intros i Hi.
  - cbn [advance_times]. rewrite Nat.add_0_r, Nat.mod_small; auto.
  - cbn [advance_times].
    destruct (get_next_api_key_valid i) as (key & _ & ->); [lia|].
    rewrite IH by (apply Nat.mod_upper_bound; lia).
    rewrite Nat.Div0.add_mod_idemp_l. do 2 f_equal. lia.
Qed.

End Rotator.

(** C6. For a key list of size N and a cursor i inside it, one call of
    [get_next_api_key] moves the cursor to (i + 1) mod N and returns the
    key stored there; N calls in a row bring the cursor back to i, so the
    key under the cursor is the one that was there before the first call. *)
Theorem advance_wraparound (keys : list string) (i : nat) :
  (i < length keys)%nat ->
  (exists key,
      get_next_api_key keys i = Some (((i + 1) mod length keys)%nat, key) /\
      keys !! ((i + 1) mod length keys)%nat = Some key) /\
  (exists j,
      advance_times keys (length keys) i = Some j /\
      j = i /\ keys !! j = keys !! i).
Proof.
  intros Hi. assert (Hpos : (0 < length keys)%nat) by lia. split.
  - destruct (get_next_api_key_valid keys i Hpos) as (key & Hk & Hn). eauto.
  - exists i. split; [|split; reflexivity].
    rewrite advance_times_closed_form by exact Hi.
    replace (i + length keys)%nat with (i + 1 * length keys)%nat by lia.
    rewrite Nat.Div0.mod_add, Nat.mod_small; auto.
Qed.

Lemma advance_wraparound_witness :
  (1 < length ["K1"; "K2"; "K3"])%nat /\
  get_next_api_key ["K1"; "K2"; "K3"] 1 = Some (2%nat, "K3") /\
  get_next_api_key ["K1"; "K2"; "K3"] 2 = Some (0%nat, "K1") /\
  advance_times ["K1"; "K2"; "K3"] 3 1 = Some 1%nat.
Proof.
  assert (H : (1 < length ["K1"; "K2"; "K3"])%nat) by (simpl; lia).
  split; [exact H|].
  destruct (advance_wraparound ["K1"; "K2"; "K3"] 1 H) as [_ (j & Hj & -> & _)].
  split; [reflexivity|]. split; [reflexivity|]. exact Hj.
Defined.

(** ** The rate limiter *)

Section RateLimiter.

Implicit Types tbl : gmap string (gmap string Q).

Lemma read_last_request_time_value tbl ip ep :
  fst (read_last_request_time tbl ip ep) = last_time tbl ip ep.
Proof.
  unfold read_last_request_time, last_time. cbn [fst].
  destruct (tbl !! ip) as [per_ip|]; cbn [default]; [reflexivity|].
  rewrite lookup_empty. reflexivity.
Qed.

(** Materialising a default changes no time a lookup would give. *)
Lemma read_last_request_time_frame tbl ip ep ip' ep' :
  last_time (snd (read_last_request_time tbl ip ep)) ip' ep'
  = last_time tbl ip' ep'.
Proof.
  unfold read_last_request_time, last_time. cbn [snd].
  destruct (decide (ip = ip')) as [<-|Hip].
  - rewrite lookup_insert_eq.
    destruct (decide (ep = ep')) as [<-|Hep].
    + rewrite lookup_insert_eq. cbn [default].
      destruct (tbl !! ip) as [per_ip|]; cbn [default]; [reflexivity|].
      rewrite lookup_empty. reflexivity.
    + rewrite lookup_insert_ne by exact Hep.
      destruct (tbl !! ip) as [per_ip|]; cbn [default]; [reflexivity|].
      rewrite lookup_empty. reflexivity.
  - rewrite lookup_insert_ne by exact Hip. reflexivity.
Qed.

Lemma write_last_request_time_same tbl ip ep t :
  last_time (write_last_request_time tbl ip ep t) ip ep = t.
Proof.
  unfold write_last_request_time, last_time.
  rewrite !lookup_insert_eq. reflexivity.
Qed.

Lemma write_last_request_time_other tbl ip ep t ip' ep' :
  (ip', ep') <> (ip, ep) ->
  last_time (write_last_request_time tbl ip ep t) ip' ep'
  = last_time tbl ip' ep'.
Proof.
  intros Hne. unfold write_last_request_time, last_time.
  destruct (decide (ip = ip')) as [<-|Hip].
  - rewrite lookup_insert_eq.
    assert (Hep : ep <> ep') by congruence.
    rewrite lookup_insert_ne by exact Hep.
    destruct (tbl !! ip) as [per_ip|]; cbn [default]; [reflexivity|].
    rewrite lookup_empty. reflexivity.
  - rewrite lookup_insert_ne by exact Hip. reflexivity.
Qed.


(** The two branches of [check_rate_limit], with the table read through
    [last_time]. *)
Lemma check_rate_limit_rejected req tbl ep T :
  let elapsed := (time_time req - last_time tbl (get_client_ip req) ep)%Q in
  (elapsed < inject_Z T)%Q ->
  check_rate_limit req tbl ep T
  = (snd (read_last_request_time tbl (get_client_ip req) ep),
     (false, (inject_Z T - elapsed)%Q)).
Proof.
  intros elapsed Hlt. unfold check_rate_limit.
  rewrite (surjective_pairing (read_last_request_time _ _ _)).
  rewrite read_last_request_time_value. fold elapsed.
  destruct (Qlt_le_dec elapsed (inject_Z T)) as [_|Hle]; [reflexivity|].
  exfalso. apply (Qlt_irrefl elapsed). eapply Qlt_le_trans; eassumption.
Qed.

Lemma check_rate_limit_admitted req tbl ep T :
  let elapsed := (time_time req - last_time tbl (get_client_ip req) ep)%Q in
  (inject_Z T <= elapsed)%Q ->
  check_rate_limit req tbl ep T
  = (write_last_request_time
       (snd (read_last_request_time tbl (get_client_ip req) ep))
       (get_client_ip req) ep (time_time req),
     (true, 0%Q)).
Proof.
  intros elapsed Hle. unfold check_rate_limit.
  rewrite (surjective_pairing (read_last_request_time _ _ _)).
  rewrite read_last_request_time_value. fold elapsed.
  destruct (Qlt_le_dec elapsed (inject_Z T)) as [Hlt|_]; [|reflexivity].
  exfalso. apply (Qlt_irrefl elapsed). eapply Qlt_le_trans; eassumption.
Qed.

End RateLimiter.





(** Where the threshold is no binary64 number the remaining time is
    rounded, down to zero here: the first request of a client at clock
    2^53 with the threshold 2^53 + 1 is rejected with 0.0 remaining. Inside
    the range of the theorem nothing is rounded: half a second after an
    admitted request, on a threshold of 2, 1.5 seconds remain. *)
Example remaining_rounded_to_zero :
  remaining_binary64 9007199254740992%float 0%float 9007199254740993
  = Some 0%float /\
  remaining_binary64 1700000000.5%float 1700000000%float 2 = Some 1.5%float.
Proof. split; vm_compute; reflexivity. Qed.

(** ** The verification-code store *)

Section VerificationCodes.

Variable cfg : config.

Lemma truthy_nonempty (s : string) : s <> "" -> Py.truthy s = true.
Proof. destruct s; [congruence|reflexivity]. Qed.

(** On a request with both fields, the handler is the four-way decision
    on the stored record. *)
Lemma verify_code_decided (req : request) (st : server_state) (email c : string) :
  asks_to_verify req email c ->
  verify_code cfg req st =
  match verification_codes st !! email with
  | None => (NoSuchCode, st)
  | Some stored =>
      if (datetime_now req >? expires_at stored)%Z then
        (Expired, set_verification_codes (delete email (verification_codes st)) st)
      else if negb (String.eqb (code stored) c) then (Mismatch, st)
      else
        (Success (String.eqb (Py.lower email) (CREATOR_EMAIL cfg)),
         set_verification_codes (delete email (verification_codes st)) st)
  end.
Proof.
  unfold asks_to_verify, json_field, verify_code.
  intros (He & Hc & Hne & Hnc).
  destruct (json req) as [data|]; [|cbn in He; congruence].
  case_bool_decide as Hempty.
  { subst data. rewrite lookup_empty in He. cbn in He. congruence. }
  rewrite He, Hc, !truthy_nonempty by assumption. reflexivity.
Qed.

Lemma verify_code_gone (req : request) (st : server_state) (email c : string) :
  asks_to_verify req email c ->
  verification_codes st !! email = None ->
  verify_code cfg req st = (NoSuchCode, st).
Proof.
  intros Hreq Hnone. rewrite (verify_code_decided req st email c Hreq), Hnone.
  reflexivity.
Qed.

Lemma deleted_record_gone (st : server_state) (email : string) :
  verification_codes
    (set_verification_codes (delete email (verification_codes st)) st) !! email
  = None.
Proof. cbn. apply lookup_delete_eq. Qed.

(** [send_code] answers with one of the three responses that follow the
    assignment to [verification_codes] only after making it. *)
Lemma send_code_stored (req : request) (choice : nat -> fin 10)
    (smtp : string -> string -> smtp_result) (st : server_state)
    (r : send_response) (st' : server_state) :
  send_code cfg req choice smtp st = (r, st') ->
  stores_code r = true ->
  verification_codes st' =
    <[Py.strip (json_field req "email") :=
        {| code := generate_verification_code choice;
           expires_at := (datetime_now req + ten_minutes)%Z |}]>
      (verification_codes st) /\
  current_key_index st' = current_key_index st /\
  last_request_time st' =
    fst (check_rate_limit req (last_request_time st) "email" (RATE_LIMIT_EMAIL cfg)).
Proof.
  unfold send_code, json_field.
  destruct (check_rate_limit _ _ _ _) as [tbl [allowed remaining]].
  cbn [fst].
  destruct allowed; cbn [negb]; [|intros [= <- _]; discriminate].
  destruct (json req) as [data|]; [|intros [= <- _]; discriminate].
  destruct (_ || _); [intros [= <- _]; discriminate|].
  destruct (_ || _); [intros [= <- _]; discriminate|].
  destruct (_ || _); [intros [= <- <-] _; auto|].
  destruct (smtp _ _); intros [= <- <-] _; auto.
Qed.

End VerificationCodes.

Lemma asks_to_verify_example (t : Q) (now : Z) :
  asks_to_verify (request_at "10.0.0.1" (verify_body " a@x.com" "123456 ") t now)
                 "a@x.com" "123456".
Proof. repeat split; discriminate. Qed.

(** C5, amended. For an email with a pending record, a verify attempt
    with both fields made strictly after the record's expiry timestamp
    answers Expired and deletes the record, so that any later verify
    attempt for that email answers NoSuchCode. An attempt made exactly at
    the expiry timestamp is still decided by the code: Success when it
    matches, Mismatch when it does not. *)
Theorem verify_after_expiry (cfg : config) (req : request) (st : server_state)
    (email c : string) (stored : verification_record) :
  asks_to_verify req email c ->
  verification_codes st !! email = Some stored ->
  ((expires_at stored < datetime_now req)%Z ->
     let st' := set_verification_codes (delete email (verification_codes st)) st in
     verify_code cfg req st = (Expired, st') /\
     verification_codes st' !! email = None /\
     forall req2 c2, asks_to_verify req2 email c2 ->
       verify_code cfg req2 st' = (NoSuchCode, st')) /\
  (datetime_now req = expires_at stored ->
     fst (verify_code cfg req st) =
       if String.eqb (code stored) c
       then Success (String.eqb (Py.lower email) (CREATOR_EMAIL cfg))
       else Mismatch).
Proof.
  intros Hreq Hstored.
  rewrite (verify_code_decided cfg req st email c Hreq), Hstored. split.
  - intros Hlate st'.
    assert (Hgt : (datetime_now req >? expires_at stored)%Z = true) by lia.
    rewrite Hgt. split; [reflexivity|]. split.
    + apply deleted_record_gone.
    + intros req2 c2 Hreq2. eapply verify_code_gone; [exact Hreq2|].
      apply deleted_record_gone.
  - intros Heq.
    assert (Hgt : (datetime_now req >? expires_at stored)%Z = false) by lia.
    rewrite Hgt. destruct (String.eqb (code stored) c); reflexivity.
Qed.

Lemma verify_after_expiry_witness :
  let st := state_with {["a@x.com" := {| code := "123456"; expires_at := 1000 |}]} in
  let req := request_at "10.0.0.1" (verify_body " a@x.com" "123456 ") 0 1001 in
  fst (verify_code example_config req st) = Expired /\
  fst (verify_code example_config req (snd (verify_code example_config req st)))
  = NoSuchCode.
Proof.
  intros st req.
  assert (Hreq : asks_to_verify req "a@x.com" "123456")
    by apply asks_to_verify_example.
  destruct (verify_after_expiry example_config req st "a@x.com" "123456"
              {| code := "123456"; expires_at := 1000 |} Hreq eq_refl)
    as [Hlate _].
  destruct Hlate as (H1 & _ & H2); [vm_compute; reflexivity|].
  rewrite H1. cbn [fst snd]. rewrite (H2 req "123456" Hreq). split; reflexivity.
Defined.

(** C5, counterexample. A verify attempt made exactly at the expiry
    timestamp, with the right code, answers Success and not Expired. *)
Lemma verify_at_expiry_succeeds :
  let st := state_with {["a@x.com" := {| code := "123456"; expires_at := 1000 |}]} in
  let req := request_at "10.0.0.1" (verify_body "a@x.com" "123456") 0 1000 in
  datetime_now req = expires_at {| code := "123456"; expires_at := 1000 |} /\
  fst (verify_code example_config req st) = Success false /\
  fst (verify_code example_config req st) <> Expired.
Proof. vm_compute. repeat split; discriminate. Qed.

(** C7, amended. When a code is issued for an email and a second code is
    issued for it before any verification, the second record replaces the
    first; a verify attempt with the first code, made no later than the new
    record's expiry, answers Mismatch whenever the two codes differ. The
    digits are drawn independently, so the two codes can be equal, and then
    the attempt answers Success. *)
Theorem second_issue_replaces_first (cfg : config)
    (req1 req2 reqv : request) (choice1 choice2 : nat -> fin 10)
    (smtp1 smtp2 : string -> string -> smtp_result)
    (st st1 st2 : server_state) (r1 r2 : send_response) (email : string) :
  send_code cfg req1 choice1 smtp1 st = (r1, st1) ->
  stores_code r1 = true ->
  Py.strip (json_field req1 "email") = email ->
  send_code cfg req2 choice2 smtp2 st1 = (r2, st2) ->
  stores_code r2 = true ->
  Py.strip (json_field req2 "email") = email ->
  asks_to_verify reqv email (generate_verification_code choice1) ->
  (datetime_now reqv <= datetime_now req2 + ten_minutes)%Z ->
  verification_codes st1 !! email =
    Some {| code := generate_verification_code choice1;
            expires_at := (datetime_now req1 + ten_minutes)%Z |} /\
  verification_codes st2 !! email =
    Some {| code := generate_verification_code choice2;
            expires_at := (datetime_now req2 + ten_minutes)%Z |} /\
  (generate_verification_code choice1 <> generate_verification_code choice2 ->
     verify_code cfg reqv st2 = (Mismatch, st2)) /\
  (generate_verification_code choice1 = generate_verification_code choice2 ->
     fst (verify_code cfg reqv st2)
     = Success (String.eqb (Py.lower email) (CREATOR_EMAIL cfg))).
Proof.
  intros Hs1 Hr1 He1 Hs2 Hr2 He2 Hreq Hnow.
  destruct (send_code_stored cfg _ _ _ _ _ _ Hs1 Hr1) as (Hvc1 & _).
  destruct (send_code_stored cfg _ _ _ _ _ _ Hs2 Hr2) as (Hvc2 & _).
  rewrite He1 in Hvc1. rewrite He2 in Hvc2.
  assert (H1 : verification_codes st1 !! email =
               Some {| code := generate_verification_code choice1;
                       expires_at := (datetime_now req1 + ten_minutes)%Z |})
    by (rewrite Hvc1; apply lookup_insert_eq).
  assert (H2 : verification_codes st2 !! email =
               Some {| code := generate_verification_code choice2;
                       expires_at := (datetime_now req2 + ten_minutes)%Z |})
    by (rewrite Hvc2; apply lookup_insert_eq).
  split; [exact H1|]. split; [exact H2|].
  rewrite (verify_code_decided cfg reqv st2 email _ Hreq), H2. cbn [code expires_at].
  assert (Hgt : (datetime_now reqv >? datetime_now req2 + ten_minutes)%Z = false)
    by lia.
  rewrite Hgt. split.
  - intros Hne.
    destruct (String.eqb_spec (generate_verification_code choice2)
                              (generate_verification_code choice1)) as [Heq|_];
      [congruence|reflexivity].
  - intros <-. rewrite String.eqb_refl. reflexivity.
Qed.

Lemma second_issue_replaces_first_witness :
  let smtp := fun _ _ : string => SmtpSent in
  let first := fun _ : nat => 1%fin : fin 10 in
  let second := fun _ : nat => 2%fin : fin 10 in
  let req1 := request_at "10.0.0.1" (send_body "a@x.com") 1000 0 in
  let req2 := request_at "10.0.0.1" (send_body "a@x.com") 1030 30000000 in
  let reqv := request_at "10.0.0.1" (verify_body "a@x.com" "111111") 1040 40000000 in
  let st1 := snd (send_code example_config req1 first smtp (state_with ∅)) in
  let st2 := snd (send_code example_config req2 second smtp st1) in
  verify_code example_config reqv st2 = (Mismatch, st2).
Proof.
  intros smtp first second req1 req2 reqv st1 st2.
  refine (proj1 (proj2 (proj2
    (second_issue_replaces_first example_config req1 req2 reqv first second
       smtp smtp (state_with ∅) st1 st2 SendCodeSent SendCodeSent "a@x.com"
       _ _ _ _ _ _ _ _))) _).
  all: try (vm_compute; reflexivity).
  - repeat split; discriminate.
  - vm_compute. discriminate.
  - vm_compute. discriminate.
Defined.

(** C7, counterexample. Two issuances that draw the same digits: the
    verify attempt with the first code answers Success. *)
Lemma equal_codes_verify_succeeds :
  let smtp := fun _ _ : string => SmtpSent in
  let zeros := fun _ : nat => 0%fin : fin 10 in
  let req1 := request_at "10.0.0.1" (send_body "a@x.com") 1000 0 in
  let req2 := request_at "10.0.0.1" (send_body "a@x.com") 1030 30000000 in
  let reqv := request_at "10.0.0.1" (verify_body "a@x.com" "000000") 1040 40000000 in
  let issue1 := send_code example_config req1 zeros smtp (state_with ∅) in
  let issue2 := send_code example_config req2 zeros smtp (snd issue1) in
  fst issue1 = SendCodeSent /\
  fst issue2 = SendCodeSent /\
  generate_verification_code zeros = "000000" /\
  fst (verify_code example_config reqv (snd issue2)) = Success false.
Proof. vm_compute. repeat split. Qed.

Lemma lower_eqb_caseless (a b : string) :
  String.eqb (Py.lower a) (Py.lower b) = caseless_eq a b.
Proof.
  revert b. induction a as [|x a IH]; intros [|y b]; cbn; try reflexivity.
  rewrite IH. reflexivity.
Qed.

(** C8. For an email with a pending record, a verify attempt whose code
    equals the stored code as a string, made before the record expires,
    answers Success and deletes the record, so that a second attempt with
    the same email and code answers NoSuchCode; the flag of the Success is
    the comparison of the email with the configured privileged address up
    to case. *)
Theorem verify_success_once (cfg : config) (req : request) (st : server_state)
    (email c : string) (stored : verification_record) :
  asks_to_verify req email c ->
  verification_codes st !! email = Some stored ->
  code stored = c ->
  (datetime_now req <= expires_at stored)%Z ->
  let st' := set_verification_codes (delete email (verification_codes st)) st in
  verify_code cfg req st
  = (Success (caseless_eq email (default "" (CREATOR_EMAIL_env cfg))), st') /\
  verification_codes st' !! email = None /\
  verify_code cfg req st' = (NoSuchCode, st') /\
  forall req2 c2, asks_to_verify req2 email c2 ->
    verify_code cfg req2 st' = (NoSuchCode, st').
Proof.
  intros Hreq Hstored Hcode Hnow st'.
  assert (Hgone : forall req2 c2, asks_to_verify req2 email c2 ->
                    verify_code cfg req2 st' = (NoSuchCode, st')).
  { intros req2 c2 Hreq2. eapply verify_code_gone; [exact Hreq2|].
    apply deleted_record_gone. }
  split; [|split; [apply deleted_record_gone|split; [|exact Hgone]]].
  - rewrite (verify_code_decided cfg req st email c Hreq), Hstored.
    assert (Hgt : (datetime_now req >? expires_at stored)%Z = false) by lia.
    rewrite Hgt, Hcode, String.eqb_refl. cbn [negb].
    unfold CREATOR_EMAIL. rewrite lower_eqb_caseless. reflexivity.
  - exact (Hgone req c Hreq).
Qed.

Lemma verify_success_once_witness :
  let st := state_with {["boss@x.COM" := {| code := "123456"; expires_at := 1000 |}]} in
  let req := request_at "10.0.0.1" (verify_body "boss@x.COM" "123456") 0 999 in
  fst (verify_code example_config req st) = Success true /\
  fst (verify_code example_config req (snd (verify_code example_config req st)))
  = NoSuchCode.
Proof.
  intros st req.
  assert (Hreq : asks_to_verify req "boss@x.COM" "123456")
    by (repeat split; discriminate).
  destruct (verify_success_once example_config req st "boss@x.COM" "123456"
              {| code := "123456"; expires_at := 1000 |} Hreq eq_refl eq_refl)
    as (H1 & _ & H2 & _); [vm_compute; discriminate|].
  rewrite H1. cbn [fst snd]. rewrite H2. split; reflexivity.
Defined.

(** C10. [send_code] assigns the new record (fresh code, expiry ten
    minutes after now) before it tries to deliver it: when it answers
    DeliveryFailure, delivery of that very code was attempted and failed,
    the new record is the one stored for the email whatever was pending
    for it before, and every other email keeps what it had. *)
Theorem delivery_failure_keeps_record (cfg : config) (req : request)
    (choice : nat -> fin 10) (smtp : string -> string -> smtp_result)
    (st st' : server_state) :
  send_code cfg req choice smtp st = (SendDeliveryFailure, st') ->
  let email := Py.strip (json_field req "email") in
  let c := generate_verification_code choice in
  (exists e, smtp email c = SmtpError e) /\
  verification_codes st' !! email =
    Some {| code := c; expires_at := (datetime_now req + ten_minutes)%Z |} /\
  forall other, other <> email ->
    verification_codes st' !! other = verification_codes st !! other.
Proof.
  intros Hsend email c.
  destruct (send_code_stored cfg _ _ _ _ _ _ Hsend eq_refl) as (Hvc & _).
  fold email c in Hvc. split; [|split].
  - revert Hsend. unfold send_code, json_field in *. subst email c.
    destruct (check_rate_limit _ _ _ _) as [tbl [allowed remaining]].
    destruct allowed; cbn [negb]; [|discriminate].
    destruct (json req) as [data|]; [|discriminate].
    repeat (destruct (_ || _); [discriminate|]).
    destruct (smtp _ _) as [|e]; [discriminate|]. eauto.
  - rewrite Hvc. apply lookup_insert_eq.
  - intros other Hne. rewrite Hvc. apply lookup_insert_ne. congruence.
Qed.

Lemma delivery_failure_keeps_record_witness :
  let smtp := fun _ _ : string => SmtpError "connection refused" in
  let choice := fun _ : nat => 7%fin : fin 10 in
  let req := request_at "10.0.0.1" (send_body "a@x.com") 1000 5 in
  let st := state_with {["a@x.com" := {| code := "123456"; expires_at := 1000 |}]} in
  fst (send_code example_config req choice smtp st) = SendDeliveryFailure /\
  verification_codes (snd (send_code example_config req choice smtp st)) !! "a@x.com"
  = Some {| code := "777777"; expires_at := 600000005 |}.
Proof.
  intros smtp choice req st.
  assert (H : send_code example_config req choice smtp st
              = (SendDeliveryFailure, snd (send_code example_config req choice smtp st)))
    by (vm_compute; reflexivity).
  split; [rewrite H; reflexivity|].
  exact (proj1 (proj2 (delivery_failure_keeps_record _ _ _ _ _ _ H))).
Defined.

(** ** Which handlers consult the rate limiter *)

Lemma send_code_rate_limit (cfg : config) (req : request)
    (choice : nat -> fin 10) (smtp : string -> string -> smtp_result)
    (st : server_state) :
  let chk := rate_limit_of req st "email" (RATE_LIMIT_EMAIL cfg) in
  last_request_time (snd (send_code cfg req choice smtp st)) = fst chk /\
  (fst (snd chk) = false ->
   send_code cfg req choice smtp st
   = (SendRateLimited (snd (snd chk)), set_last_request_time (fst chk) st)) /\
  (fst (snd chk) = true -> send_status (fst (send_code cfg req choice smtp st)) <> 429%Z).
Proof.
  unfold rate_limit_of, send_code.
  destruct (check_rate_limit _ _ _ _) as [tbl [allowed remaining]]. cbn [fst snd].
  split; [|split].
  - destruct allowed; cbn [negb]; [|reflexivity].
    destruct (json req) as [data|]; [|reflexivity].
    repeat (destruct (_ || _); [reflexivity|]).
    destruct (smtp _ _); reflexivity.
  - intros ->. reflexivity.
  - intros ->. cbn [negb].
    destruct (json req) as [data|]; [|discriminate].
    repeat (destruct (_ || _); [discriminate|]).
    destruct (smtp _ _); discriminate.
Qed.

Lemma chat_rate_limit (cfg : config) (req : request)
    (upstream : nat -> string -> string -> upstream_reply) (st : server_state) :
  let chk := rate_limit_of req st "chat" (RATE_LIMIT_CHAT cfg) in
  last_request_time (snd (chat cfg req upstream st)) = fst chk /\
  (fst (snd chk) = false ->
   chat cfg req upstream st
   = (ChatRateLimited (snd (snd chk)), set_last_request_time (fst chk) st)).
Proof.
  unfold rate_limit_of, chat.
  destruct (check_rate_limit _ _ _ _) as [tbl [allowed remaining]]. cbn [fst snd].
  split.
  - destruct allowed; cbn [negb]; [|reflexivity].
    destruct (json req) as [data|]; [|reflexivity].
    destruct (_ || _); [reflexivity|].
    destruct (negb _); [reflexivity|].
    destruct (chat_failover _ _ _ _) as [[resp current] sent]. reflexivity.
  - intros ->. reflexivity.
Qed.

Lemma generate_image_rate_limit (cfg : config) (req : request)
    (upstream : string -> image_reply) (st : server_state) :
  let chk := rate_limit_of req st "image" (RATE_LIMIT_IMAGE cfg) in
  last_request_time (snd (generate_image cfg req upstream st)) = fst chk /\
  (fst (snd chk) = false ->
   generate_image cfg req upstream st
   = (ImageRateLimited (snd (snd chk)), set_last_request_time (fst chk) st)).
Proof.
  unfold rate_limit_of, generate_image.
  destruct (check_rate_limit _ _ _ _) as [tbl [allowed remaining]]. cbn [fst snd].
  split.
  - destruct allowed; cbn [negb]; [|reflexivity].
    destruct (json req) as [data|]; [|reflexivity].
    destruct (_ || _); [reflexivity|].
    destruct (negb _); [reflexivity|].
    destruct (upstream _) as [status_code content| |e]; try reflexivity.
    destruct (_ =? _)%Z; [reflexivity|]. destruct (_ && _); reflexivity.
  - intros ->. reflexivity.
Qed.

(** C9. [/verify-code] does no rate limiting: its answer never has the
    status of a rate-limited response, it leaves the rate-limit table as it
    found it, and neither the table, nor the identity of the client, nor
    the clock of the limiter has any influence on what it answers or on the
    codes it leaves. [/send-code], [/chat] and [/generate-image] are the
    handlers that run [check_rate_limit], each for its own category: they
    leave the table as the check leaves it and answer with the rate-limited
    response when the check rejects. [/health] leaves the state alone. *)
Theorem verify_code_no_rate_limit (cfg : config) (req : request) (st : server_state) :
  (verify_status (fst (verify_code cfg req st)) <> 429%Z /\
   last_request_time (snd (verify_code cfg req st)) = last_request_time st /\
   (forall tbl,
      verify_code cfg req (set_last_request_time tbl st)
      = (fst (verify_code cfg req st),
         set_last_request_time tbl (snd (verify_code cfg req st)))) /\
   (forall xff addr seconds,
      verify_code cfg
        {| x_forwarded_for := xff; remote_addr := addr; json := json req;
           time_time := seconds; datetime_now := datetime_now req |} st
      = verify_code cfg req st)) /\
  (forall choice smtp,
     let chk := rate_limit_of req st "email" (RATE_LIMIT_EMAIL cfg) in
     last_request_time (snd (send_code cfg req choice smtp st)) = fst chk /\
     (fst (snd chk) = false ->
      fst (send_code cfg req choice smtp st) = SendRateLimited (snd (snd chk)))) /\
  (forall upstream,
     let chk := rate_limit_of req st "chat" (RATE_LIMIT_CHAT cfg) in
     last_request_time (snd (chat cfg req upstream st)) = fst chk /\
     (fst (snd chk) = false ->
      fst (chat cfg req upstream st) = ChatRateLimited (snd (snd chk)))) /\
  (forall upstream,
     let chk := rate_limit_of req st "image" (RATE_LIMIT_IMAGE cfg) in
     last_request_time (snd (generate_image cfg req upstream st)) = fst chk /\
     (fst (snd chk) = false ->
      fst (generate_image cfg req upstream st) = ImageRateLimited (snd (snd chk)))) /\
  snd (health_check cfg st) = st.
Proof.
  split; [|split; [|split; [|split]]].
  - unfold verify_code. cbn [json datetime_now].
    destruct (json req) as [data|]; [|repeat split; discriminate].
    destruct (bool_decide _); [repeat split; discriminate|].
    destruct (_ || _); [repeat split; discriminate|].
    cbn [verification_codes set_last_request_time].
    destruct (verification_codes st !! _) as [stored|];
      [|repeat split; discriminate].
    destruct (_ >? _)%Z; [repeat split; discriminate|].
    destruct (negb _); repeat split; discriminate.
  - intros choice smtp chk.
    destruct (send_code_rate_limit cfg req choice smtp st) as (H1 & H2 & _).
    split; [exact H1|]. intros Hrej. fold chk in H2. rewrite (H2 Hrej). reflexivity.
  - intros upstream chk.
    destruct (chat_rate_limit cfg req upstream st) as (H1 & H2).
    split; [exact H1|]. intros Hrej. fold chk in H2. rewrite (H2 Hrej). reflexivity.
  - intros upstream chk.
    destruct (generate_image_rate_limit cfg req upstream st) as (H1 & H2).
    split; [exact H1|]. intros Hrej. fold chk in H2. rewrite (H2 Hrej). reflexivity.
  - reflexivity.
Qed.

Lemma verify_code_no_rate_limit_witness :
  let smtp := fun _ _ : string => SmtpSent in
  let choice := fun _ : nat => 1%fin : fin 10 in
  let st := snd (send_code example_config
                   (request_at "10.0.0.1" (send_body "a@x.com") 1000 0)
                   choice smtp (state_with ∅)) in
  let req := request_at "10.0.0.1" (verify_body "a@x.com" "111111") 1001 1000000 in
  send_status (fst (send_code example_config req choice smtp st)) = 429%Z /\
  verify_status (fst (verify_code example_config req st)) <> 429%Z /\
  last_request_time (snd (verify_code example_config req st)) = last_request_time st.
Proof.
  intros smtp choice st req.
  destruct (verify_code_no_rate_limit example_config req st)
    as ((Hv & Hframe & _) & Hsend & _).
  destruct (Hsend choice smtp) as (_ & Hrej).
  split; [|split; assumption].
  rewrite Hrej by (vm_compute; reflexivity). reflexivity.
Defined.

(** ** The failover loop of [/chat] *)

Section Failover.

Variable keys : list string.
Variable message : string.
Variable upstream : nat -> string -> string -> upstream_reply.

Abbreviation N := (length keys).
Abbreviation loop := (chat_loop keys message upstream).
Abbreviation body := (iteration keys message upstream).

Lemma chat_loop_body (ls : loop_state) :
  loop ls =
  if (attempt ls <? N)%nat then
    match body ls with
    | inl ls' => loop ls'
    | inr res => res
    end
  else (Exhausted, ls).
Proof.
  funelim (chat_loop keys message upstream ls);
    repeat match goal with
           | E : (_ <? _)%nat = _ |- _ => rewrite E
           | E : iteration _ _ _ _ = _ |- _ => rewrite E
           end; reflexivity.
Qed.

Lemma rotation_length (c k : nat) :
  (0 < N)%nat -> length (rotation keys c k) = k.
Proof.
  intros Hpos. unfold rotation.
  induction k as [|k IH]; [reflexivity|].
  rewrite seq_S, omap_app, length_app, IH. simpl.
  destruct (lookup_lt_is_Some_2 keys ((c + k) mod N)%nat) as [key Hkey];
    [apply Nat.mod_upper_bound; lia|].
  rewrite Hkey. simpl. lia.
Qed.

Lemma rotation_snoc (c k : nat) (key : string) :
  keys !! ((c + k) mod N)%nat = Some key ->
  rotation keys c (S k) = (rotation keys c k ++ [key])%list.
Proof.
  intros Hkey. unfold rotation.
  rewrite seq_S, omap_app. simpl. rewrite Hkey. reflexivity.
Qed.

(** Rotating, as the loop does it, leads from attempt [k] to attempt
    [k + 1]. *)
Lemma rotate_next (c k : nat) (ls : loop_state) :
  (0 < N)%nat ->
  at_attempt keys c k ls ->
  rotate keys (set_posted (posted ls ++ [api_key ls]) ls)
    = Some (next_attempt keys ls) /\
  at_attempt keys c (S k) (next_attempt keys ls).
Proof.
  intros Hpos (Hatt & Hidx & Hkey & Hposted).
  destruct (get_next_api_key_valid keys (index ls) Hpos) as (key & Hk & Hnext).
  split.
  - unfold rotate, next_attempt. cbn [index set_posted attempt posted api_key].
    rewrite Hnext, Hk. reflexivity.
  - unfold at_attempt, next_attempt. cbn [index attempt posted api_key].
    rewrite Hk. cbn [default]. repeat split.
    + congruence.
    + rewrite Hidx, Nat.Div0.add_mod_idemp_l. f_equal. lia.
    + rewrite Hposted. symmetry. apply rotation_snoc. rewrite <- Hidx. exact Hkey.
Qed.

Lemma iteration_retried (c k : nat) (ls : loop_state) :
  at_attempt keys c k ls ->
  (k < N)%nat ->
  retried N k (upstream k (api_key ls) message) = true ->
  body ls = inl (next_attempt keys ls) /\
  at_attempt keys c (S k) (next_attempt keys ls).
Proof.
  intros Hat Hlt Hretry.
  destruct (rotate_next c k ls) as (Hrot & Hnext); [lia|exact Hat|].
  split; [|exact Hnext].
  destruct Hat as (Hatt & _ & _ & Hposted).
  assert (Hlen : length (posted ls) = k)
    by (rewrite Hposted; apply rotation_length; lia).
  unfold iteration, on_exception.
  rewrite Hlen, Hrot. cbn [attempt set_posted]. rewrite Hatt.
  destruct (upstream k (api_key ls) message) as [status_code text| |e];
    cbn [retried] in Hretry.
  - destruct (status_code =? 429)%Z; [reflexivity|].
    cbn [orb] in Hretry.
    destruct (status_code =? 200)%Z; [|discriminate]. cbn [negb andb] in *.
    destruct text as [t|]; [discriminate|].
    apply andb_prop in Hretry as [_ Hretry]. rewrite Hretry. reflexivity.
  - rewrite Hretry. reflexivity.
  - rewrite Hretry. reflexivity.
Qed.

(** A run of [j] retried attempts is skipped by the loop. *)
Lemma chat_loop_retried (c j k : nat) (ls : loop_state) :
  at_attempt keys c k ls ->
  (k + j <= N)%nat ->
  (forall i key, (k <= i < k + j)%nat ->
     keys !! ((c + i) mod N)%nat = Some key ->
     retried N i (upstream i key message) = true) ->
  exists ls', at_attempt keys c (k + j) ls' /\ loop ls = loop ls'.
Proof.
  revert k ls. induction j as [|j IH]; intros k ls Hat Hle Hall.
  - exists ls. rewrite Nat.add_0_r. split; [exact Hat|reflexivity].
  - destruct (iteration_retried c k ls Hat) as (Hbody & Hnext); [lia| |].
    { apply Hall; [lia|]. destruct Hat as (_ & <- & Hkey & _). exact Hkey. }
    destruct (IH (S k) (next_attempt keys ls) Hnext) as (ls' & Hat' & Hloop).
    { lia. }
    { intros i key Hi. apply Hall. lia. }
    exists ls'. split.
    + replace (k + S j)%nat with (S k + j)%nat by lia. exact Hat'.
    + rewrite chat_loop_body, Hbody.
      destruct Hat as (-> & _).
      replace (k <? N)%nat with true by (symmetry; apply Nat.ltb_lt; lia).
      exact Hloop.
Qed.

Lemma at_attempt_start (c : nat) (key : string) :
  (c < N)%nat ->
  keys !! c = Some key ->
  at_attempt keys c 0
    {| attempt := 0; index := c; api_key := key; posted := [] |}.
Proof.
  intros Hc Hkey. unfold at_attempt. cbn [attempt index api_key posted].
  rewrite Nat.add_0_r, Nat.mod_small by exact Hc. auto.
Qed.

Lemma quota_exhausted_retried (k : nat) (r : upstream_reply) :
  quota_exhausted r = true -> retried N k r = true.
Proof.
  destruct r as [status_code text| |e]; cbn; try discriminate.
  intros ->. reflexivity.
Qed.

(** The 429 branch, for any values of the loop variables. *)
Lemma iteration_quota (ls : loop_state) :
  (0 < N)%nat ->
  quota_exhausted (upstream (length (posted ls)) (api_key ls) message) = true ->
  body ls = inl (next_attempt keys ls).
Proof.
  intros Hpos Hq. unfold iteration.
  destruct (upstream _ _ _) as [status_code text| |e]; try discriminate.
  cbn [quota_exhausted] in Hq. rewrite Hq.
  unfold rotate, next_attempt. cbn [index set_posted attempt posted api_key].
  destruct (get_next_api_key_valid keys (index ls) Hpos) as (key & Hk & ->).
  rewrite Hk. reflexivity.
Qed.

(** An attempt that ends the loop. *)
Lemma chat_loop_final (c k : nat) (ls : loop_state) (resp : chat_response) :
  at_attempt keys c k ls ->
  (k < N)%nat ->
  body ls = inr (resp, set_posted (posted ls ++ [api_key ls]) ls) ->
  let '(r, ls') := loop ls in
  (r, index ls', posted ls') = (resp, ((c + k) mod N)%nat, rotation keys c (S k)).
Proof.
  intros (Hatt & Hidx & Hkey & Hposted) Hlt Hbody.
  rewrite chat_loop_body, Hbody, Hatt.
  replace (k <? N)%nat with true by (symmetry; apply Nat.ltb_lt; lia).
  cbn [index posted set_posted]. rewrite Hidx, Hposted.
  rewrite (rotation_snoc c k (api_key ls)) by (rewrite <- Hidx; exact Hkey).
  reflexivity.
Qed.

(** The loop when [k] retried attempts come first. *)
Lemma chat_failover_retried (c k : nat) :
  (c < N)%nat ->
  (k <= N)%nat ->
  (forall i key, (i < k)%nat ->
     keys !! ((c + i) mod N)%nat = Some key ->
     retried N i (upstream i key message) = true) ->
  exists ls,
    at_attempt keys c k ls /\
    chat_failover keys message upstream c =
      let '(r, ls') := loop ls in (r, index ls', posted ls').
Proof.
  intros Hc Hk Hall.
  destruct (lookup_lt_is_Some_2 keys c Hc) as [key Hkey].
  destruct (chat_loop_retried c k 0 _ (at_attempt_start c key Hc Hkey))
    as (ls & Hat & Hloop).
  { lia. }
  { intros i key' Hi. apply Hall. lia. }
  exists ls. split; [exact Hat|].
  unfold chat_failover. rewrite Hkey, Hloop. reflexivity.
Qed.

End Failover.

(** C1. With N keys loaded: on a quota-exhausted reply (status 429) the
    loop advances the rotator, adds one to the attempt count and goes round
    again, which ends in Exhausted once the count has reached N; when all N
    attempts are answered with 429 the response is Exhausted after exactly
    N requests, one per key in rotation order, and the cursor is back where
    it started; when the attempts before attempt k are answered with 429
    and attempt k succeeds, the response is Succeeded with the text of that
    reply, after exactly k + 1 requests, the last one carrying the key k
    places after the starting cursor. *)
Theorem chat_quota_failover (keys : list string) (message : string)
    (upstream : nat -> string -> string -> upstream_reply) (c : nat) :
  (c < length keys)%nat ->
  (forall ls,
     (attempt ls < length keys)%nat ->
     quota_exhausted (upstream (length (posted ls)) (api_key ls) message) = true ->
     iteration keys message upstream ls = inl (next_attempt keys ls) /\
     get_next_api_key keys (index ls)
       = Some (index (next_attempt keys ls), api_key (next_attempt keys ls)) /\
     chat_loop keys message upstream ls
       = chat_loop keys message upstream (next_attempt keys ls) /\
     (S (attempt ls) = length keys ->
      chat_loop keys message upstream ls = (Exhausted, next_attempt keys ls))) /\
  ((forall i key, (i < length keys)%nat ->
      keys !! ((c + i) mod length keys)%nat = Some key ->
      quota_exhausted (upstream i key message) = true) ->
   chat_failover keys message upstream c
     = (Exhausted, c, rotation keys c (length keys)) /\
   length (rotation keys c (length keys)) = length keys) /\
  (forall k text,
     (k < length keys)%nat ->
     (forall i key, (i < k)%nat ->
        keys !! ((c + i) mod length keys)%nat = Some key ->
        quota_exhausted (upstream i key message) = true) ->
     (forall key, keys !! ((c + k) mod length keys)%nat = Some key ->
        upstream k key message = Reply 200 (Some text)) ->
     chat_failover keys message upstream c
       = (Succeeded text, ((c + k) mod length keys)%nat, rotation keys c (S k)) /\
     length (rotation keys c (S k)) = S k /\
     last (rotation keys c (S k)) = keys !! ((c + k) mod length keys)%nat).
Proof.
  intros Hc. assert (Hpos : (0 < length keys)%nat) by lia.
  split; [|split].
  - intros ls Hlt Hq.
    pose proof (iteration_quota keys message upstream ls Hpos Hq) as Hbody.
    assert (Hloop : chat_loop keys message upstream ls
                    = chat_loop keys message upstream (next_attempt keys ls)).
    { rewrite (chat_loop_body keys message upstream ls), Hbody.
      replace (attempt ls <? length keys)%nat with true
        by (symmetry; apply Nat.ltb_lt; lia).
      reflexivity. }
    split; [exact Hbody|]. split.
    { destruct (get_next_api_key_valid keys (index ls) Hpos) as (key & Hk & ->).
      cbn [next_attempt index api_key]. rewrite Hk. reflexivity. }
    split; [exact Hloop|].
    intros Hlast. rewrite Hloop, chat_loop_body.
    cbn [attempt next_attempt]. rewrite Hlast, Nat.ltb_irrefl. reflexivity.
  - intros Hall.
    destruct (chat_failover_retried keys message upstream c (length keys) Hc)
      as (ls & (Hatt & Hidx & _ & Hposted) & ->); [lia| |].
    { intros i key Hi Hkey. apply quota_exhausted_retried.
      apply Hall; assumption. }
    rewrite chat_loop_body, Hatt, Nat.ltb_irrefl, Hidx, Hposted.
    replace (c + length keys)%nat with (c + 1 * length keys)%nat by lia.
    rewrite Nat.Div0.mod_add, Nat.mod_small by exact Hc.
    split; [reflexivity|]. apply rotation_length. exact Hpos.
  - intros k text Hk Hall Hok.
    destruct (chat_failover_retried keys message upstream c k Hc)
      as (ls & Hat & ->); [lia| |].
    { intros i key Hi Hkey. apply quota_exhausted_retried.
      apply Hall; assumption. }
    assert (Hkey : keys !! ((c + k) mod length keys)%nat = Some (api_key ls)).
    { destruct Hat as (_ & <- & Hkey & _). exact Hkey. }
    assert (Hbody : iteration keys message upstream ls
                    = inr (Succeeded text,
                           set_posted (posted ls ++ [api_key ls]) ls)).
    { unfold iteration. destruct Hat as (_ & _ & _ & ->).
      rewrite rotation_length by exact Hpos.
      rewrite (Hok _ Hkey). reflexivity. }
    pose proof (chat_loop_final keys message upstream c k ls _ Hat Hk Hbody) as Hfin.
    destruct (chat_loop keys message upstream ls) as [r ls'].
    split; [exact Hfin|]. split; [apply rotation_length; exact Hpos|].
    rewrite (rotation_snoc keys c k _ Hkey), last_snoc. symmetry. exact Hkey.
Qed.

Lemma chat_quota_failover_witness :
  let keys := ["K1"; "K2"; "K3"] in
  let third := fun (n : nat) (key message : string) =>
                 if String.eqb key "K3" then Reply 200 (Some "hello")
                 else Reply 429 None in
  let none := fun (n : nat) (key message : string) => Reply 429 None in
  chat_failover keys "hi" third 0 = (Succeeded "hello", 2%nat, ["K1"; "K2"; "K3"]) /\
  chat_failover ["K1"; "K2"] "hi" none 0 = (Exhausted, 0%nat, ["K1"; "K2"]).
Proof.
  intros keys third none. split.
  - assert (Hc : (0 < length keys)%nat) by (simpl; lia).
    destruct (chat_quota_failover keys "hi" third 0 Hc) as (_ & _ & Hok).
    destruct (Hok 2%nat "hello") as (H & _).
    + simpl. lia.
    + intros [|[|i]] key Hi; [| |simpl in Hi; lia]; intros [= <-]; reflexivity.
    + intros key [= <-]. reflexivity.
    + exact H.
  - assert (Hc : (0 < length ["K1"; "K2"])%nat) by (simpl; lia).
    destruct (chat_quota_failover ["K1"; "K2"] "hi" none 0 Hc) as (_ & Hall & _).
    destruct Hall as (H & _); [reflexivity|]. exact H.
Defined.

(** C4, amended. A timeout is retried like a quota-exhausted reply, by
    rotating and adding one to the attempt count, on every attempt but
    the last; a timeout on the last of the N attempts ends the request
    with the timeout response (status 500) without rotating. When every
    attempt times out there are exactly N requests, one per key in
    rotation order, the response is the timeout response and not
    Exhausted, and the cursor rests on the key of the last request. *)
Theorem chat_timeout_failover (keys : list string) (message : string)
    (upstream : nat -> string -> string -> upstream_reply) (c : nat) :
  (c < length keys)%nat ->
  (forall k ls,
     at_attempt keys c k ls ->
     upstream k (api_key ls) message = TimeoutError ->
     ((k < length keys - 1)%nat ->
      iteration keys message upstream ls = inl (next_attempt keys ls)) /\
     (k = (length keys - 1)%nat ->
      iteration keys message upstream ls
      = inr (UpstreamTimeout, set_posted (posted ls ++ [api_key ls]) ls))) /\
  ((forall i key, (i < length keys)%nat ->
      keys !! ((c + i) mod length keys)%nat = Some key ->
      upstream i key message = TimeoutError) ->
   chat_failover keys message upstream c
     = (UpstreamTimeout, ((c + (length keys - 1)) mod length keys)%nat,
        rotation keys c (length keys)) /\
   length (rotation keys c (length keys)) = length keys /\
   chat_status UpstreamTimeout = 500%Z /\
   chat_status Exhausted = 503%Z).
Proof.
  intros Hc. assert (Hpos : (0 < length keys)%nat) by lia.
  assert (Hlast : forall k ls,
            at_attempt keys c k ls ->
            upstream k (api_key ls) message = TimeoutError ->
            k = (length keys - 1)%nat ->
            iteration keys message upstream ls
            = inr (UpstreamTimeout, set_posted (posted ls ++ [api_key ls]) ls)).
  { intros k ls (Hatt & _ & _ & Hposted) Hreply ->.
    unfold iteration, on_exception.
    rewrite Hposted, rotation_length, Hreply by exact Hpos.
    cbn [attempt set_posted]. rewrite Hatt, Nat.ltb_irrefl. reflexivity. }
  split.
  - intros k ls Hat Hreply. split; [|apply Hlast; assumption].
    intros Hlt.
    apply (iteration_retried keys message upstream c k ls Hat); [lia|].
    rewrite Hreply. cbn [retried]. apply Nat.ltb_lt. exact Hlt.
  - intros Hall.
    destruct (chat_failover_retried keys message upstream c (length keys - 1) Hc)
      as (ls & Hat & ->); [lia| |].
    { intros i key Hi Hkey. rewrite (Hall i key) by (lia || exact Hkey).
      cbn [retried]. apply Nat.ltb_lt. exact Hi. }
    assert (Hkey : keys !! ((c + (length keys - 1)) mod length keys)%nat
                   = Some (api_key ls)).
    { destruct Hat as (_ & <- & Hkey & _). exact Hkey. }
    assert (Hreply : upstream (length keys - 1)%nat (api_key ls) message = TimeoutError)
      by (apply Hall; [lia|exact Hkey]).
    pose proof (chat_loop_final keys message upstream c _ ls _ Hat
                  ltac:(lia) (Hlast _ ls Hat Hreply eq_refl)) as Hfin.
    destruct (chat_loop keys message upstream ls) as [r ls'].
    replace (S (length keys - 1)) with (length keys) in Hfin by lia.
    split; [exact Hfin|]. split; [apply rotation_length; exact Hpos|].
    split; reflexivity.
Qed.

Lemma chat_timeout_failover_witness :
  let timeouts := fun (n : nat) (key message : string) => TimeoutError in
  chat_failover ["K1"; "K2"; "K3"] "hi" timeouts 1
  = (UpstreamTimeout, 0%nat, ["K2"; "K3"; "K1"]).
Proof.
  intros timeouts.
  assert (Hc : (1 < length ["K1"; "K2"; "K3"])%nat) by (simpl; lia).
  destruct (chat_timeout_failover ["K1"; "K2"; "K3"] "hi" timeouts 1 Hc)
    as (_ & Hall).
  destruct Hall as (H & _); [reflexivity|]. exact H.
Defined.

(** C4, counterexample. With two keys and a timeout on every attempt the
    request ends with the timeout response and the cursor one place on,
    whereas two quota-exhausted replies end it with Exhausted and the
    cursor where it started: the two terminal outcomes differ. *)
Lemma all_timeouts_not_exhausted :
  let timeouts := fun (n : nat) (key message : string) => TimeoutError in
  let quota := fun (n : nat) (key message : string) => Reply 429 None in
  chat_failover ["K1"; "K2"] "hi" timeouts 0 = (UpstreamTimeout, 1%nat, ["K1"; "K2"]) /\
  chat_failover ["K1"; "K2"] "hi" quota 0 = (Exhausted, 0%nat, ["K1"; "K2"]) /\
  fst (fst (chat_failover ["K1"; "K2"] "hi" timeouts 0))
  <> fst (fst (chat_failover ["K1"; "K2"] "hi" quota 0)).
Proof. vm_compute. repeat split; discriminate. Qed.

(** ** Scrubbing credentials from error text *)

Section Scrubbing.

Implicit Types k old s t : list ascii.

Let star : ascii := "*"%char.
Let core : list ascii := list_ascii_of_string "HIDDEN".
Let marker : list ascii := list_ascii_of_string HIDDEN.

Lemma replace_chars_cons a old new c s :
  Py.replace_chars (a :: old) new (c :: s) =
  if Py.starts_with (a :: old) (c :: s)
  then (new ++ Py.replace_chars (a :: old) new (skipn (length old) s))%list
  else c :: Py.replace_chars (a :: old) new s.
Proof.
  simp replace_chars.
  destruct (Py.starts_with (a :: old) (c :: s)); simp replace_chars; reflexivity.
Qed.

Lemma starts_with_nil k : Py.starts_with k [] = true -> k = [].
Proof. destruct k; [reflexivity|discriminate]. Qed.

Lemma occurs_in_nil k : Py.occurs_in k [] = true -> k = [].
Proof.
  cbn [Py.occurs_in]. rewrite orb_false_r. apply starts_with_nil.
Qed.

Lemma occurs_in_cons k c s :
  Py.occurs_in k (c :: s) = Py.starts_with k (c :: s) || Py.occurs_in k s.
Proof. reflexivity. Qed.

Lemma starts_with_occurs k s :
  Py.starts_with k s = true -> Py.occurs_in k s = true.
Proof. intros H. destruct s; cbn [Py.occurs_in]; rewrite H; reflexivity. Qed.

Lemma starts_with_app k s t :
  Py.starts_with k s = true -> Py.starts_with k (s ++ t) = true.
Proof.
  revert s. induction k as [|x k IH]; intros [|y s]; cbn;
    try reflexivity; try discriminate.
  intros [-> H]%andb_prop. cbn. apply IH. exact H.
Qed.

(** An occurrence in a part of the text is an occurrence in the text. *)
Lemma occurs_in_app_r k s t :
  Py.occurs_in k t = true -> Py.occurs_in k (s ++ t) = true.
Proof.
  intros H. induction s as [|c s IH]; [exact H|].
  cbn [app]. rewrite occurs_in_cons, IH. apply orb_true_r.
Qed.

Lemma occurs_in_app_l k s t :
  Py.occurs_in k s = true -> Py.occurs_in k (s ++ t) = true.
Proof.
  induction s as [|c s IH].
  - intros ->%occurs_in_nil. destruct t; reflexivity.
  - cbn [app]. rewrite !occurs_in_cons.
    intros [H|H]%orb_prop.
    + apply (starts_with_app k (c :: s) t) in H. cbn [app] in H.
      rewrite H. reflexivity.
    + rewrite (IH H). apply orb_true_r.
Qed.

Lemma occurs_in_skipn k n s :
  Py.occurs_in k (skipn n s) = true -> Py.occurs_in k s = true.
Proof.
  intros H. rewrite <- (firstn_skipn n s). apply occurs_in_app_r. exact H.
Qed.

(** A text that does not have the character [c] cannot start across a
    [c], nor occur across one. *)
Lemma starts_with_cut (c : ascii) k s t :
  c ∉ k ->
  Py.starts_with k (s ++ c :: t) = true -> Py.starts_with k s = true.
Proof.
  revert s. induction k as [|x k IH]; intros s Hc; [reflexivity|].
  apply not_elem_of_cons in Hc as [Hne Hc].
  destruct s as [|y s]; cbn.
  - intros [Heq _]%andb_prop. apply Ascii.eqb_eq in Heq. congruence.
  - intros [-> H]%andb_prop. cbn. apply (IH s Hc H).
Qed.

Lemma occurs_in_cut (c : ascii) k s t :
  c ∉ k ->
  Py.occurs_in k (s ++ c :: t) = true ->
  Py.occurs_in k s = true \/ Py.occurs_in k t = true.
Proof.
  intros Hc. induction s as [|y s IH].
  - cbn [app]. rewrite occurs_in_cons. intros [H|H]%orb_prop; [left|right; exact H].
    apply starts_with_occurs. apply (starts_with_cut c k [] t Hc H).
  - cbn [app]. rewrite !occurs_in_cons. intros [H|H]%orb_prop.
    + left. rewrite (starts_with_cut c k (y :: s) t Hc H). reflexivity.
    + destruct (IH H) as [H'|H']; [left|right; exact H'].
      rewrite H'. apply orb_true_r.
Qed.

Lemma safe_nonempty k : safe k -> k <> [].
Proof. intros [_ H] ->. discriminate. Qed.

Lemma starts_with_marker k t :
  star ∉ k -> Py.starts_with k (marker ++ t) = true -> k = [].
Proof.
  intros Hc H. apply starts_with_nil.
  exact (starts_with_cut star k [] _ Hc H).
Qed.

(** An occurrence of a safe text in [marker ++ t] lies in [t]. *)
Lemma occurs_in_marker k t :
  safe k -> Py.occurs_in k (marker ++ t) = true -> Py.occurs_in k t = true.
Proof.
  intros Hsafe H. pose proof (safe_nonempty k Hsafe) as Hne.
  destruct Hsafe as [Hc Hcore].
  change (Py.occurs_in k core = false) in Hcore.
  assert (Hstep : forall u, Py.occurs_in k (star :: u) = true ->
                            Py.occurs_in k u = true).
  { intros u Hu. destruct (occurs_in_cut star k [] u Hc Hu) as [Hnil|Hu'];
      [|exact Hu']. apply occurs_in_nil in Hnil. contradiction. }
  do 3 apply Hstep in H.
  change (Py.occurs_in k (core ++ star :: star :: star :: t) = true) in H.
  destruct (occurs_in_cut star k core _ Hc H) as [Hin|Hrest]; [congruence|].
  do 2 apply Hstep in Hrest. exact Hrest.
Qed.

(** A text without asterisks that starts the outcome of a replacement
    started the original. *)
Lemma starts_with_replace a old k s :
  star ∉ k ->
  Py.starts_with k (Py.replace_chars (a :: old) marker s) = true ->
  Py.starts_with k s = true.
Proof.
  intros Hc. revert k Hc. induction s as [|c s IH]; intros k Hc.
  - simp replace_chars; auto.
  - rewrite replace_chars_cons.
    destruct (Py.starts_with (a :: old) (c :: s)).
    + intros ->%starts_with_marker; [reflexivity|exact Hc].
    + destruct k as [|x k]; [reflexivity|]. cbn [Py.starts_with].
      apply not_elem_of_cons in Hc as [_ Hc].
      intros [-> H]%andb_prop. cbn. apply (IH k Hc H).
Qed.

(** Replacing [old] by the marker brings in no occurrence of a safe
    text, and leaves none of [old] when [old] is safe. *)
Lemma replace_chars_clean a old (n : nat) :
  forall s, (length s <= n)%nat ->
    (forall k, safe k ->
       Py.occurs_in k (Py.replace_chars (a :: old) marker s) = true ->
       Py.occurs_in k s = true) /\
    (safe (a :: old) ->
       Py.occurs_in (a :: old) (Py.replace_chars (a :: old) marker s) = false).
Proof.
  induction n as [|n IH]; intros s Hlen.
  - destruct s; [|cbn in Hlen; lia]. simp replace_chars.
    split; [auto|reflexivity].
  - destruct s as [|c s]; [simp replace_chars; split; [auto|reflexivity]|].
    cbn [length] in Hlen.
    assert (Hskip : (length (skipn (length old) s) <= n)%nat)
      by (rewrite length_skipn; lia).
    destruct (IH _ Hskip) as [IHa1 IHa2].
    destruct (IH s ltac:(lia)) as [IHb1 IHb2].
    rewrite replace_chars_cons.
    destruct (Py.starts_with (a :: old) (c :: s)) eqn:Hstart.
    + split.
      * intros k Hk H. apply occurs_in_marker in H; [|exact Hk].
        apply IHa1 in H; [|exact Hk].
        rewrite occurs_in_cons. apply occurs_in_skipn in H. rewrite H.
        apply orb_true_r.
      * intros Hsafe.
        destruct (Py.occurs_in (a :: old) (marker ++ _)) eqn:H; [|reflexivity].
        apply occurs_in_marker in H; [|exact Hsafe].
        rewrite IHa2 in H by exact Hsafe. discriminate.
    + assert (Hhead : forall k, star ∉ k ->
                Py.starts_with k (c :: Py.replace_chars (a :: old) marker s) = true ->
                Py.starts_with k (c :: s) = true).
      { intros k Hc H. apply (starts_with_replace a old k (c :: s) Hc).
        rewrite replace_chars_cons, Hstart. exact H. }
      split.
      * intros k Hk. rewrite !occurs_in_cons. intros [H|H]%orb_prop.
        -- rewrite (Hhead k (proj1 Hk) H). reflexivity.
        -- rewrite (IHb1 k Hk H). apply orb_true_r.
      * intros Hsafe. rewrite occurs_in_cons, (IHb2 Hsafe), orb_false_r.
        destruct (Py.starts_with (a :: old) (c :: Py.replace_chars _ _ s)) eqn:H;
          [|reflexivity].
        apply (Hhead _ (proj1 Hsafe)) in H. congruence.
Qed.

End Scrubbing.

Lemma marker_free_safe (k : string) :
  marker_free k -> safe (list_ascii_of_string k).
Proof.
  intros [Hstar Hcore]. split; [|exact Hcore].
  clear Hcore.
  induction k as [|d k IH]; cbn [Py.has_char list_ascii_of_string] in *.
  - apply not_elem_of_nil.
  - apply orb_false_elim in Hstar as [Hd Hk].
    apply not_elem_of_cons. split; [|apply IH; exact Hk].
    intros <-. rewrite Ascii.eqb_refl in Hd. discriminate.
Qed.

Lemma marker_free_truthy (k : string) : marker_free k -> Py.truthy k = true.
Proof. intros [_ H]. destruct k; [discriminate|reflexivity]. Qed.

Lemma truthy_chars (old : string) :
  Py.truthy old = true -> exists a l, list_ascii_of_string old = a :: l.
Proof. destruct old as [|a l]; [discriminate|]. cbn. eauto. Qed.

(** After [s.replace(k, HIDDEN)] the text has no [k], for a [k] the marker
    cannot rebuild. *)
Lemma contains_replace_self (k s : string) :
  marker_free k -> Py.contains (Py.replace k HIDDEN s) k = false.
Proof.
  intros Hk. pose proof (marker_free_safe k Hk) as Hsafe.
  destruct (truthy_chars k (marker_free_truthy k Hk)) as (a & l & Heq).
  unfold Py.contains, Py.replace.
  rewrite list_ascii_of_string_of_list_ascii, Heq. rewrite Heq in Hsafe.
  apply (replace_chars_clean a l _ _ (le_n _)). exact Hsafe.
Qed.

(** [s.replace(old, HIDDEN)] does not bring such a [k] into a text that
    had none. *)
Lemma contains_replace_other (k old s : string) :
  marker_free k -> Py.truthy old = true ->
  Py.contains s k = false -> Py.contains (Py.replace old HIDDEN s) k = false.
Proof.
  intros Hk Hold Hs. pose proof (marker_free_safe k Hk) as Hsafe.
  destruct (truthy_chars old Hold) as (a & l & Heq).
  unfold Py.contains, Py.replace in *.
  rewrite list_ascii_of_string_of_list_ascii, Heq.
  destruct (Py.occurs_in _ (Py.replace_chars _ _ _)) eqn:H; [|reflexivity].
  apply (replace_chars_clean a l _ _ (le_n _)) in H; [congruence|exact Hsafe].
Qed.

Lemma scrub_keys_other (keys : list string) (s k : string) :
  Forall (fun key => Py.truthy key = true) keys ->
  marker_free k -> Py.contains s k = false ->
  Py.contains (fold_left (fun acc key => Py.replace key HIDDEN acc) keys s) k = false.
Proof.
  intros Hkeys Hk. revert s. induction Hkeys as [|key keys Hkey _ IH]; intros s Hs.
  - exact Hs.
  - cbn [fold_left]. apply IH. apply contains_replace_other; assumption.
Qed.

Lemma scrub_keys_clean (keys : list string) (s k : string) :
  Forall marker_free keys -> k ∈ keys ->
  Py.contains (fold_left (fun acc key => Py.replace key HIDDEN acc) keys s) k = false.
Proof.
  intros Hkeys. revert s. induction Hkeys as [|key keys Hkey Hrest IH]; intros s Hin.
  - apply elem_of_nil in Hin. contradiction.
  - cbn [fold_left]. apply elem_of_cons in Hin as [->|Hin]; [|apply IH; exact Hin].
    apply scrub_keys_other.
    + eapply Forall_impl; [exact Hrest|]. apply marker_free_truthy.
    + exact Hkey.
    + apply contains_replace_self. exact Hkey.
Qed.




(** * Further properties of the code *)

(** ** The rate limiter: how checks compose *)

(** The answer of a check depends on the table only through the stored
    time of the pair that is checked. *)
Lemma check_rate_limit_answer (req : request)
    (tbl1 tbl2 : gmap string (gmap string Q)) (ep : string) (T : Z) :
  last_time tbl1 (get_client_ip req) ep = last_time tbl2 (get_client_ip req) ep ->
  snd (check_rate_limit req tbl1 ep T) = snd (check_rate_limit req tbl2 ep T).
Proof.
  intros Heq.
  destruct (Qlt_le_dec (time_time req - last_time tbl1 (get_client_ip req) ep)
                       (inject_Z T)) as [Hlt|Hle].
  - rewrite (check_rate_limit_rejected req tbl1 ep T Hlt).
    rewrite Heq in Hlt. rewrite (check_rate_limit_rejected req tbl2 ep T Hlt).
    cbn [snd]. rewrite Heq. reflexivity.
  - rewrite (check_rate_limit_admitted req tbl1 ep T Hle).
    rewrite Heq in Hle. rewrite (check_rate_limit_admitted req tbl2 ep T Hle).
    reflexivity.
Qed.

Lemma check_rate_limit_allowed_inv (req : request)
    (tbl : gmap string (gmap string Q)) (ep : string) (T : Z) :
  fst (snd (check_rate_limit req tbl ep T)) = true ->
  (inject_Z T <= time_time req - last_time tbl (get_client_ip req) ep)%Q /\
  last_time (fst (check_rate_limit req tbl ep T)) (get_client_ip req) ep
  = time_time req /\
  forall ip' ep', (ip', ep') <> (get_client_ip req, ep) ->
    last_time (fst (check_rate_limit req tbl ep T)) ip' ep' = last_time tbl ip' ep'.
Proof.
  destruct (Qlt_le_dec (time_time req - last_time tbl (get_client_ip req) ep)
                       (inject_Z T)) as [Hlt|Hle].
  - rewrite (check_rate_limit_rejected req tbl ep T Hlt). discriminate.
  - rewrite (check_rate_limit_admitted req tbl ep T Hle). cbn [fst snd].
    intros _. split; [exact Hle|]. split.
    + apply write_last_request_time_same.
    + intros ip' ep' Hne. rewrite write_last_request_time_other by exact Hne.
      apply read_last_request_time_frame.
Qed.

Lemma check_rate_limit_rejected_inv (req : request)
    (tbl : gmap string (gmap string Q)) (ep : string) (T : Z) :
  fst (snd (check_rate_limit req tbl ep T)) = false ->
  forall ip' ep',
    last_time (fst (check_rate_limit req tbl ep T)) ip' ep' = last_time tbl ip' ep'.
Proof.
  destruct (Qlt_le_dec (time_time req - last_time tbl (get_client_ip req) ep)
                       (inject_Z T)) as [Hlt|Hle].
  - rewrite (check_rate_limit_rejected req tbl ep T Hlt). cbn [fst].
    intros _ ip' ep'. apply read_last_request_time_frame.
  - rewrite (check_rate_limit_admitted req tbl ep T Hle). discriminate.
Qed.

(** X1. After a check of a client was admitted, the next check of the same
    client for the same endpoint is rejected when less than the threshold
    has passed between the two clock readings, with the rest of the
    interval as remaining time, and admitted otherwise. *)
Theorem rate_limit_window (req1 req2 : request)
    (tbl : gmap string (gmap string Q)) (ep : string) (T : Z) :
  get_client_ip req2 = get_client_ip req1 ->
  fst (snd (check_rate_limit req1 tbl ep T)) = true ->
  let tbl1 := fst (check_rate_limit req1 tbl ep T) in
  let gap := (time_time req2 - time_time req1)%Q in
  ((gap < inject_Z T)%Q ->
   snd (check_rate_limit req2 tbl1 ep T) = (false, (inject_Z T - gap)%Q)) /\
  ((inject_Z T <= gap)%Q ->
   fst (snd (check_rate_limit req2 tbl1 ep T)) = true).
Proof.
  intros Hip Hadm tbl1 gap.
  destruct (check_rate_limit_allowed_inv req1 tbl ep T Hadm) as (_ & Hlast & _).
  fold tbl1 in Hlast. rewrite <- Hip in Hlast. split.
  - intros Hlt.
    rewrite (check_rate_limit_rejected req2 tbl1 ep T); rewrite Hlast;
      [reflexivity|exact Hlt].
  - intros Hle.
    rewrite (check_rate_limit_admitted req2 tbl1 ep T); rewrite ?Hlast;
      [reflexivity|exact Hle].
Qed.

Lemma rate_limit_window_witness :
  let req0 := request_at "A" None 1700000000 0 in
  let req1 := request_at "A" None 1700000001 0 in
  let req2 := request_at "A" None (17000000021 # 10) 0 in
  let tbl := fst (check_rate_limit req0 ∅ "chat" 2) in
  snd (check_rate_limit req1 tbl "chat" 2)
  = (false, (inject_Z 2 - (1700000001 - 1700000000))%Q) /\
  fst (snd (check_rate_limit req2 tbl "chat" 2)) = true.
Proof.
  intros req0 req1 req2 tbl. split.
  - apply (rate_limit_window req0 req1 ∅ "chat" 2); vm_compute; reflexivity.
  - apply (rate_limit_window req0 req2 ∅ "chat" 2).
    + reflexivity.
    + vm_compute. reflexivity.
    + vm_compute. discriminate.
Defined.

(** X2. A check for one client and endpoint has no influence on the
    answer of a later check for another client or another endpoint. *)
Theorem rate_limit_pairs_independent (req1 req2 : request)
    (tbl : gmap string (gmap string Q)) (ep1 ep2 : string) (T1 T2 : Z) :
  (get_client_ip req2, ep2) <> (get_client_ip req1, ep1) ->
  snd (check_rate_limit req2 (fst (check_rate_limit req1 tbl ep1 T1)) ep2 T2)
  = snd (check_rate_limit req2 tbl ep2 T2).
Proof.
  intros Hne. apply check_rate_limit_answer.
  destruct (fst (snd (check_rate_limit req1 tbl ep1 T1))) eqn:Hadm.
  - destruct (check_rate_limit_allowed_inv req1 tbl ep1 T1 Hadm) as (_ & _ & Hframe).
    apply Hframe. exact Hne.
  - apply (check_rate_limit_rejected_inv req1 tbl ep1 T1 Hadm).
Qed.

Lemma rate_limit_pairs_independent_witness :
  let req1 := request_at "A" None 1700000000 0 in
  let req2 := request_at "A" None 1700000001 0 in
  snd (check_rate_limit req2 (fst (check_rate_limit req1 ∅ "chat" 2)) "image" 5)
  = (true, 0%Q).
Proof.
  intros req1 req2.
  rewrite (rate_limit_pairs_independent req1 req2 ∅ "chat" "image" 2 5).
  - vm_compute. reflexivity.
  - vm_compute. discriminate.
Defined.

(** X3. A rejected check leaves no trace: whatever check comes next, for
    any client, endpoint and threshold, is answered as if the rejected one
    had not been made. Being rejected does not prolong the wait. *)
Theorem rejected_check_invisible (req req' : request)
    (tbl : gmap string (gmap string Q)) (ep ep' : string) (T T' : Z) :
  fst (snd (check_rate_limit req tbl ep T)) = false ->
  snd (check_rate_limit req' (fst (check_rate_limit req tbl ep T)) ep' T')
  = snd (check_rate_limit req' tbl ep' T').
Proof.
  intros Hrej. apply check_rate_limit_answer.
  apply (check_rate_limit_rejected_inv req tbl ep T Hrej).
Qed.

Lemma rejected_check_invisible_witness :
  let req0 := request_at "A" None 1700000000 0 in
  let req1 := request_at "A" None 1700000001 0 in
  let req2 := request_at "A" None 1700000002 0 in
  let tbl := fst (check_rate_limit req0 ∅ "chat" 2) in
  fst (snd (check_rate_limit req2 (fst (check_rate_limit req1 tbl "chat" 2)) "chat" 2))
  = true.
Proof.
  intros req0 req1 req2 tbl.
  rewrite (rejected_check_invisible req1 req2 tbl "chat" "chat" 2 2).
  - vm_compute. reflexivity.
  - vm_compute. reflexivity.
Defined.

(** X4. The seconds printed in a rate-limited response are the integer
    part of the remaining time: never more than the remaining time and
    less than one second short of it, so a remaining time below one second
    is printed as 0. *)
Theorem shown_seconds_bounds (remaining : Q) :
  (0 < remaining)%Q ->
  (inject_Z (shown_seconds remaining) <= remaining)%Q /\
  (remaining < inject_Z (shown_seconds remaining + 1))%Q /\
  ((remaining < 1)%Q -> shown_seconds remaining = 0%Z).
Proof.
  intros Hpos. unfold shown_seconds.
  assert (Hnum : (0 <= Qnum remaining)%Z).
  { destruct remaining as [n d]. unfold Qlt in Hpos. cbn in *. lia. }
  rewrite Z.quot_div_nonneg by lia.
  replace (Qnum remaining / Z.pos (Qden remaining))%Z with (Qfloor remaining)
    by (destruct remaining; reflexivity).
  split; [apply Qfloor_le|]. split; [apply Qlt_floor|].
  intros Hlt.
  assert (H0 : (0 <= Qfloor remaining)%Z).
  { change 0%Z with (Qfloor 0). apply Qfloor_resp_le. apply Qlt_le_weak. exact Hpos. }
  assert (H1 : (Qfloor remaining < 1)%Z).
  { apply Z.lt_nge. intros Hge.
    apply (Qlt_irrefl remaining). eapply Qlt_le_trans; [exact Hlt|].
    eapply Qle_trans; [|apply Qfloor_le].
    change 1%Q with (inject_Z 1). rewrite <- Zle_Qle. exact Hge. }
  lia.
Qed.

Lemma shown_seconds_bounds_witness :
  shown_seconds (9 # 10) = 0%Z /\
  (inject_Z (shown_seconds (29 # 10)) <= 29 # 10)%Q.
Proof.
  split.
  - apply (shown_seconds_bounds (9 # 10)); reflexivity.
  - apply (shown_seconds_bounds (29 # 10)). reflexivity.
Defined.

(** ** The client key *)

Lemma split_first_no_sep (sep : ascii) (s : string) :
  Py.has_char sep s = false -> Py.split_first sep s = s.
Proof.
  induction s as [|c s IH]; cbn [Py.has_char Py.split_first]; [reflexivity|].
  intros [Hc Hs]%orb_false_elim.
  rewrite Ascii.eqb_sym, Hc, (IH Hs). reflexivity.
Qed.

Lemma split_first_sep (sep : ascii) (a rest : string) :
  Py.has_char sep a = false ->
  Py.split_first sep (a ++ String sep rest) = a.
Proof.
  induction a as [|c a IH]; simpl.
  - intros _. rewrite Ascii.eqb_refl. reflexivity.
  - intros [Hc Ha]%orb_false_elim.
    rewrite Ascii.eqb_sym, Hc, (IH Ha). reflexivity.
Qed.

(** X5. A request that carries a non-empty [X-Forwarded-For] header is
    keyed by that header alone, whatever its peer address: by the text
    before the first comma, stripped, and by the whole header, stripped,
    when it has no comma. *)
Theorem get_client_ip_forwarded (req : request) (h : string) :
  x_forwarded_for req = Some h ->
  h <> "" ->
  (forall a rest, Py.has_char "," a = false -> h = a ++ String "," rest ->
     get_client_ip req = Py.strip a) /\
  (Py.has_char "," h = false -> get_client_ip req = Py.strip h).
Proof.
  intros Hh Hne. unfold get_client_ip. rewrite Hh, (truthy_nonempty h Hne). split.
  - intros a rest Ha ->. rewrite split_first_sep by exact Ha. reflexivity.
  - intros Hno. rewrite split_first_no_sep by exact Hno. reflexivity.
Qed.

Lemma get_client_ip_forwarded_witness :
  get_client_ip {| x_forwarded_for := Some " 203.0.113.7 , 10.0.0.1";
                   remote_addr := Some "10.0.0.1"; json := None;
                   time_time := 0; datetime_now := 0 |}
  = "203.0.113.7".
Proof.
  refine (proj1 (get_client_ip_forwarded
                   {| x_forwarded_for := Some " 203.0.113.7 , 10.0.0.1";
                      remote_addr := Some "10.0.0.1"; json := None;
                      time_time := 0; datetime_now := 0 |}
                   " 203.0.113.7 , 10.0.0.1" eq_refl _)
            " 203.0.113.7 " " 10.0.0.1" eq_refl eq_refl).
  discriminate.
Defined.

(** ** The rotator keeps the cursor inside the key list *)

(** X6. Whatever the cursor was, even outside the list, a call of
    [get_next_api_key] that returns leaves a cursor inside the key list and
    returns the key stored there; it fails exactly when no key is loaded. *)
Theorem get_next_api_key_in_range (keys : list string) (i : nat) :
  (forall j key, get_next_api_key keys i = Some (j, key) ->
     (j < length keys)%nat /\ keys !! j = Some key) /\
  (get_next_api_key keys i = None <-> keys = []).
Proof.
  split.
  - intros j key. destruct keys as [|k0 keys']; [discriminate|].
    destruct (get_next_api_key_valid (k0 :: keys') i) as (key' & Hk & ->);
      [cbn; lia|].
    intros [= <- <-]. split; [|exact Hk].
    eapply lookup_lt_Some. exact Hk.
  - split.
    + destruct keys as [|k0 keys']; [reflexivity|].
      destruct (get_next_api_key_valid (k0 :: keys') i) as (key' & _ & ->);
        [cbn; lia|discriminate].
    + intros ->. reflexivity.
Qed.

Lemma get_next_api_key_in_range_witness :
  get_next_api_key ["K1"; "K2"; "K3"] 7 = Some (2%nat, "K3") /\
  (2 < length ["K1"; "K2"; "K3"])%nat.
Proof.
  split; [reflexivity|].
  exact (proj1 (proj1 (get_next_api_key_in_range ["K1"; "K2"; "K3"] 7)
                  2%nat "K3" eq_refl)).
Defined.

(** ** The verification code *)

Lemma digit_choice (d : fin 10) :
  let c := default "0"%char (String.get (fin_to_nat d) digits) in
  is_digit c = true /\ Py.isspace c = false.
Proof.
  destruct (fin_to_nat d) as [|[|[|[|[|[|[|[|[|[|n]]]]]]]]]]; split; reflexivity.
Qed.

Lemma generated_code_nonempty (choice : nat -> fin 10) :
  generate_verification_code choice <> "".
Proof. unfold generate_verification_code. cbn [seq map string_of_list_ascii]. discriminate. Qed.

(** X7. Whatever is drawn, the generated code has exactly six characters,
    all of them digits, and stripping it gives it back: it is a code a
    [/verify-code] request can carry unchanged. *)
Theorem generate_verification_code_digits (choice : nat -> fin 10) :
  String.length (generate_verification_code choice) = 6%nat /\
  all_digits (generate_verification_code choice) = true /\
  Py.strip (generate_verification_code choice) = generate_verification_code choice /\
  generate_verification_code choice <> "".
Proof.
  unfold generate_verification_code. cbn [seq map string_of_list_ascii].
  destruct (digit_choice (choice 0%nat)) as [Hd0 Hs0].
  destruct (digit_choice (choice 1%nat)) as [Hd1 _].
  destruct (digit_choice (choice 2%nat)) as [Hd2 _].
  destruct (digit_choice (choice 3%nat)) as [Hd3 _].
  destruct (digit_choice (choice 4%nat)) as [Hd4 _].
  destruct (digit_choice (choice 5%nat)) as [Hd5 Hs5].
  cbv zeta in *.
  split; [reflexivity|]. split; [|split; [|discriminate]].
  - cbn [all_digits]. rewrite Hd0, Hd1, Hd2, Hd3, Hd4, Hd5. reflexivity.
  - unfold Py.strip, Py.rstrip. cbn [Py.lstrip]. rewrite Hs0.
    cbn [String.rev String.rev_app Py.lstrip]. rewrite Hs5. reflexivity.
Qed.

(** ** Loading the keys *)

Lemma py_split_cons (sep : ascii) (s : string) :
  exists piece pieces, py_split sep s = piece :: pieces.
Proof.
  destruct s as [|c s]; cbn [py_split]; [eauto|].
  destruct (Ascii.eqb c sep); [eauto|].
  destruct (py_split sep s); eauto.
Qed.

Lemma py_split_no_sep (sep : ascii) (s : string) :
  Forall (fun piece => Py.has_char sep piece = false) (py_split sep s).
Proof.
  induction s as [|c s IH]; cbn [py_split].
  - repeat constructor.
  - destruct (Ascii.eqb c sep) eqn:Hc; [constructor; [reflexivity|exact IH]|].
    destruct (py_split sep s) as [|piece pieces].
    + repeat constructor. cbn. rewrite Ascii.eqb_sym, Hc. reflexivity.
    + inversion IH as [|? ? Hp Hps]; subst. constructor; [|exact Hps].
      cbn [Py.has_char]. rewrite Ascii.eqb_sym, Hc, Hp. reflexivity.
Qed.

Lemma has_char_lstrip (c : ascii) (s : string) :
  Py.has_char c s = false -> Py.has_char c (Py.lstrip s) = false.
Proof.
  induction s as [|d s IH]; cbn [Py.lstrip]; [auto|].
  destruct (Py.isspace d); [|auto].
  cbn [Py.has_char]. intros [_ H]%orb_false_elim. apply IH. exact H.
Qed.

Lemma has_char_rev_app (c : ascii) (s acc : string) :
  Py.has_char c (String.rev_app s acc) = Py.has_char c s || Py.has_char c acc.
Proof.
  revert acc. induction s as [|d s IH]; intros acc; cbn [String.rev_app Py.has_char].
  - reflexivity.
  - rewrite IH. cbn [Py.has_char].
    destruct (Ascii.eqb c d), (Py.has_char c s); reflexivity.
Qed.

Lemma has_char_rev (c : ascii) (s : string) :
  Py.has_char c (String.rev s) = Py.has_char c s.
Proof.
  unfold String.rev. rewrite has_char_rev_app. cbn. apply orb_false_r.
Qed.

Lemma has_char_strip (c : ascii) (s : string) :
  Py.has_char c s = false -> Py.has_char c (Py.strip s) = false.
Proof.
  intros H. unfold Py.strip, Py.rstrip.
  rewrite has_char_rev. apply has_char_lstrip.
  rewrite has_char_rev. apply has_char_lstrip. exact H.
Qed.

Lemma kept_keys_spec (pieces : list string) :
  Forall (fun piece => Py.has_char "," piece = false) pieces ->
  let keys :=
    map Py.strip (filter (fun key => Py.truthy (Py.strip key) = true) pieces) in
  Forall (fun key => key <> "" /\ Py.has_char "," key = false) keys /\
  (keys = [] <-> Forall (fun piece => Py.strip piece = "") pieces).
Proof.
  induction 1 as [|piece pieces Hp _ IH]; cbn zeta in *.
  - split; [constructor|]. split; [constructor|reflexivity].
  - destruct IH as [IH1 IH2]. rewrite filter_cons.
    destruct (decide (Py.truthy (Py.strip piece) = true)) as [Ht|Hf].
    + cbn [map]. split.
      * constructor; [|exact IH1]. split; [|apply has_char_strip; exact Hp].
        intros Hempty. rewrite Hempty in Ht. discriminate.
      * split; [discriminate|].
        intros Hall. inversion Hall as [|? ? Hblank _]; subst.
        rewrite Hblank in Ht. discriminate.
    + split; [exact IH1|]. rewrite IH2. split.
      * intros Hall. constructor; [|exact Hall].
        destruct (Py.strip piece); [reflexivity|]. cbn in Hf. congruence.
      * intros Hall. inversion Hall; assumption.
Qed.

(** X8. Start-up loads a key list exactly when some piece between the
    commas of [GEMINI_API_KEYS] is not blank, and stops (no list) when the
    variable is unset, empty or made of blank pieces only. A loaded list is
    never empty, so the initial cursor 0 points at a key, and no loaded key
    is empty or contains a comma. *)
Theorem load_api_keys_loaded (env : option string) :
  (forall keys, load_api_keys env = Some keys ->
     (0 < length keys)%nat /\
     is_Some (keys !! 0%nat) /\
     Forall (fun key => key <> "" /\ Py.has_char "," key = false) keys) /\
  (load_api_keys env = None <->
   Forall (fun piece => Py.strip piece = "") (py_split "," (default "" env))).
Proof.
  unfold load_api_keys.
  pose proof (kept_keys_spec _ (py_split_no_sep "," (default "" env))) as [Hk Hnil].
  cbn zeta in Hk, Hnil.
  destruct (default "" env) as [|c s] eqn:Henv; cbn [Py.truthy negb].
  - split; [discriminate|]. split; [repeat constructor|reflexivity].
  - destruct (map Py.strip _) as [|key keys'] eqn:Hkeys.
    + split; [discriminate|]. split; [intros _; apply Hnil; reflexivity|reflexivity].
    + split.
      * intros keys [= <-]. split; [cbn; lia|]. split; [cbn; eauto|exact Hk].
      * split; [discriminate|]. intros Hall. apply Hnil in Hall. discriminate.
Qed.

Lemma load_api_keys_loaded_witness :
  load_api_keys (Some " K1, ,K2 ,,K3") = Some ["K1"; "K2"; "K3"] /\
  (0 < length ["K1"; "K2"; "K3"])%nat /\
  load_api_keys (Some " , ,") = None.
Proof.
  split; [reflexivity|]. split.
  - exact (proj1 (proj1 (load_api_keys_loaded (Some " K1, ,K2 ,,K3")) _ eq_refl)).
  - apply (proj2 (load_api_keys_loaded (Some " , ,"))). repeat constructor.
Defined.

(** ** Scrubbing: what is left alone *)

Lemma replace_chars_absent (a : ascii) (old new s : list ascii) :
  Py.occurs_in (a :: old) s = false ->
  Py.replace_chars (a :: old) new s = s.
Proof.
  induction s as [|c s IH]; [simp replace_chars; reflexivity|].
  rewrite occurs_in_cons. intros [Hstart Hrest]%orb_false_elim.
  rewrite replace_chars_cons, Hstart, (IH Hrest). reflexivity.
Qed.

Lemma replace_absent (old new s : string) :
  Py.truthy old = true -> Py.contains s old = false -> Py.replace old new s = s.
Proof.
  intros Hold Hs. destruct (truthy_chars old Hold) as (a & l & Heq).
  unfold Py.replace, Py.contains in *. rewrite Heq in *.
  rewrite replace_chars_absent by exact Hs.
  apply string_of_list_ascii_of_string.
Qed.

Lemma contains_empty (s : string) : Py.contains s "" = true.
Proof. unfold Py.contains. destruct (list_ascii_of_string s); reflexivity. Qed.

Lemma scrub_keys_absent (keys : list string) (s : string) :
  (forall key, key ∈ keys -> Py.contains s key = false) ->
  fold_left (fun acc key => Py.replace key HIDDEN acc) keys s = s.
Proof.
  induction keys as [|key keys IH]; intros Hall; [reflexivity|].
  cbn [fold_left].
  assert (Hkey : Py.contains s key = false) by (apply Hall; left).
  rewrite replace_absent; [|destruct key; [|reflexivity]|exact Hkey].
  - apply IH. intros key' Hin. apply Hall. right. exact Hin.
  - rewrite contains_empty in Hkey. discriminate.
Qed.

(** X9. An error text in which no API key and no configured password
    occurs comes out of [sanitize_error_message] unchanged. *)
Theorem sanitize_error_message_unchanged (cfg : config) (error_str : string) :
  (forall key, key ∈ API_KEYS cfg -> Py.contains error_str key = false) ->
  (forall pw, GMAIL_APP_PASSWORD cfg = Some pw -> pw <> "" ->
     Py.contains error_str pw = false) ->
  sanitize_error_message cfg error_str = error_str.
Proof.
  intros Hkeys Hpw. unfold sanitize_error_message.
  rewrite scrub_keys_absent by exact Hkeys.
  destruct (GMAIL_APP_PASSWORD cfg) as [pw|]; [|reflexivity].
  destruct (Py.truthy pw) eqn:Ht; [|reflexivity].
  apply replace_absent; [exact Ht|].
  apply Hpw; [reflexivity|]. intros ->. discriminate.
Qed.

Lemma sanitize_error_message_unchanged_witness :
  sanitize_error_message example_config "connection refused (errno 111)"
  = "connection refused (errno 111)".
Proof.
  apply sanitize_error_message_unchanged.
  - intros key Hin. cbn in Hin.
    repeat (apply elem_of_cons in Hin as [->|Hin]; [reflexivity|]).
    apply elem_of_nil in Hin. contradiction.
  - intros pw [= <-] _. reflexivity.
Defined.

(** X10. When no configured credential has an asterisk or is a part of the
    word HIDDEN, scrubbing a text that was already scrubbed changes
    nothing. *)
Theorem sanitize_error_message_idempotent (cfg : config) (error_str : string) :
  Forall marker_free (API_KEYS cfg) ->
  (forall pw, GMAIL_APP_PASSWORD cfg = Some pw -> marker_free pw) ->
  sanitize_error_message cfg (sanitize_error_message cfg error_str)
  = sanitize_error_message cfg error_str.
Proof.
  intros Hkeys Hpw.
  assert (Hclean :
    (forall key, key ∈ API_KEYS cfg ->
       Py.contains (sanitize_error_message cfg error_str) key = false) /\
    (forall pw, GMAIL_APP_PASSWORD cfg = Some pw ->
       Py.contains (sanitize_error_message cfg error_str) pw = false)).
  { unfold sanitize_error_message.
    destruct (GMAIL_APP_PASSWORD cfg) as [pw|].
    - pose proof (Hpw pw eq_refl) as Hfree.
      rewrite (marker_free_truthy pw Hfree). split.
      + intros key Hin. apply contains_replace_other.
        * rewrite Forall_forall in Hkeys. apply Hkeys. exact Hin.
        * apply marker_free_truthy. exact Hfree.
        * apply scrub_keys_clean; assumption.
      + intros pw' [= <-]. apply contains_replace_self. exact Hfree.
    - split; [|discriminate].
      intros key Hin. apply scrub_keys_clean; assumption. }
  destruct Hclean as [Hk Hp].
  remember (sanitize_error_message cfg error_str) as out eqn:Hout.
  unfold sanitize_error_message at 1.
  rewrite scrub_keys_absent by exact Hk.
  destruct (GMAIL_APP_PASSWORD cfg) as [pw|]; [|reflexivity].
  destruct (Py.truthy pw) eqn:Ht; [|reflexivity].
  apply replace_absent; [exact Ht|]. apply Hp. reflexivity.
Qed.

Lemma sanitize_error_message_idempotent_witness :
  let once := sanitize_error_message example_config "403 for ?key=K2" in
  once = "403 for ?key=***HIDDEN***" /\
  sanitize_error_message example_config once = once.
Proof.
  intros once. split; [reflexivity|].
  apply sanitize_error_message_idempotent.
  - repeat constructor.
  - intros pw [= <-]. split; reflexivity.
Defined.

(** ** The verification endpoints: issuing, retrying, refusing *)

(** What each response of [/send-code] tells about the request and about
    the state it leaves. *)
Lemma send_code_inv (cfg : config) (req : request) (choice : nat -> fin 10)
    (smtp : string -> string -> smtp_result) (st st' : server_state)
    (r : send_response) :
  send_code cfg req choice smtp st = (r, st') ->
  let chk := rate_limit_of req st "email" (RATE_LIMIT_EMAIL cfg) in
  let email := Py.strip (json_field req "email") in
  last_request_time st' = fst chk /\
  current_key_index st' = current_key_index st /\
  match r with
  | SendRateLimited remaining =>
      fst (snd chk) = false /\ remaining = snd (snd chk) /\
      verification_codes st' = verification_codes st
  | SendEmailRequired | SendInvalidEmail =>
      fst (snd chk) = true /\ verification_codes st' = verification_codes st
  | SendNotConfigured | SendCodeSent | SendDeliveryFailure =>
      fst (snd chk) = true /\ email <> "" /\
      verification_codes st' =
        <[email := {| code := generate_verification_code choice;
                      expires_at := (datetime_now req + ten_minutes)%Z |}]>
          (verification_codes st)
  end.
Proof.
  unfold send_code, rate_limit_of, json_field.
  destruct (check_rate_limit _ _ _ _) as [tbl [allowed remaining]]. cbn [fst snd].
  destruct allowed; cbn [negb]; [|intros [= <- <-]; auto].
  destruct (json req) as [data|]; [|intros [= <- <-]; auto].
  destruct (_ || _); [intros [= <- <-]; auto|].
  destruct (negb (Py.truthy _)) eqn:Hemail; cbn [orb];
    [intros [= <- <-]; auto|].
  assert (Hne : Py.strip (default "" (data !! "email")) <> "").
  { intros Heq. rewrite Heq in Hemail. discriminate. }
  destruct (negb (Py.has_char _ _)); [intros [= <- <-]; auto|].
  destruct (_ || _); [intros [= <- <-]; auto|].
  destruct (smtp _ _); intros [= <- <-]; auto.
Qed.

(** X11. When [/send-code] answers that the code was sent, delivery was
    asked for the stored code and went through, and a [/verify-code]
    request for the same email that carries this code, made no later than
    ten minutes after the issuance, succeeds and uses the code up. *)
Theorem issued_code_verifies (cfg : config) (req reqv : request)
    (choice : nat -> fin 10) (smtp : string -> string -> smtp_result)
    (st st' : server_state) :
  send_code cfg req choice smtp st = (SendCodeSent, st') ->
  Py.strip (json_field reqv "email") = Py.strip (json_field req "email") ->
  Py.strip (json_field reqv "code") = generate_verification_code choice ->
  (datetime_now reqv <= datetime_now req + ten_minutes)%Z ->
  let email := Py.strip (json_field req "email") in
  smtp email (generate_verification_code choice) = SmtpSent /\
  verify_code cfg reqv st'
  = (Success (String.eqb (Py.lower email) (CREATOR_EMAIL cfg)),
     set_verification_codes (delete email (verification_codes st')) st') /\
  verification_codes
    (set_verification_codes (delete email (verification_codes st')) st') !! email
  = None.
Proof.
  intros Hsend Hemail Hcode Hnow email.
  destruct (send_code_inv cfg _ _ _ _ _ _ Hsend) as (_ & _ & _ & Hne & Hvc).
  fold email in Hne, Hvc. split; [|split].
  - revert Hsend. unfold send_code, json_field in *. subst email.
    destruct (check_rate_limit _ _ _ _) as [tbl [allowed remaining]].
    destruct allowed; cbn [negb]; [|discriminate].
    destruct (json req) as [data|]; [|discriminate].
    repeat (destruct (_ || _); [discriminate|]).
    destruct (smtp _ _) as [|e]; [reflexivity|discriminate].
  - assert (Hreq : asks_to_verify reqv email (generate_verification_code choice)).
    { repeat split; try assumption. apply generated_code_nonempty. }
    rewrite (verify_code_decided cfg reqv st' email _ Hreq), Hvc, lookup_insert_eq.
    cbn [code expires_at].
    replace (datetime_now reqv >? datetime_now req + ten_minutes)%Z with false
      by (symmetry; lia).
    rewrite String.eqb_refl. reflexivity.
  - cbn. apply lookup_delete_eq.
Qed.

Lemma issued_code_verifies_witness :
  let smtp := fun _ _ : string => SmtpSent in
  let choice := fun i : nat =>
                  match i with
                  | 1 => 1%fin | 2 => 2%fin | 3 => 3%fin | 4 => 4%fin | 5 => 5%fin
                  | _ => 0%fin
                  end : fin 10 in
  let req := request_at "10.0.0.1" (send_body " a@x.com ") 1700000000 0 in
  let reqv := request_at "10.9.9.9" (verify_body "a@x.com" "012345") 1700000600 600000000 in
  generate_verification_code choice = "012345" /\
  fst (verify_code example_config reqv
         (snd (send_code example_config req choice smtp (state_with ∅))))
  = Success false.
Proof.
  intros smtp choice req reqv. split; [reflexivity|].
  assert (Hle : (datetime_now reqv <= datetime_now req + ten_minutes)%Z)
    by (vm_compute; discriminate).
  pose proof (issued_code_verifies example_config req reqv choice smtp (state_with ∅)
                (snd (send_code example_config req choice smtp (state_with ∅)))
                eq_refl eq_refl eq_refl Hle) as (_ & H & _).
  rewrite H. reflexivity.
Defined.

(** X12. [/verify-code] counts no attempts: any run of attempts with wrong
    codes for an email, made before its record expires, is answered
    Mismatch each time and leaves the whole state as it was, so the record
    is still pending for the right code. *)
Theorem wrong_codes_keep_record (cfg : config) (reqs : list request)
    (st : server_state) (email : string) (stored : verification_record) :
  verification_codes st !! email = Some stored ->
  Forall (fun req => exists c, asks_to_verify req email c /\ c <> code stored /\
                               (datetime_now req <= expires_at stored)%Z) reqs ->
  verify_all cfg reqs st = (repeat Mismatch (length reqs), st).
Proof.
  intros Hstored. induction 1 as [|req reqs (c & Hreq & Hne & Hnow) _ IH];
    [reflexivity|].
  cbn [verify_all length repeat].
  rewrite (verify_code_decided cfg req st email c Hreq), Hstored.
  replace (datetime_now req >? expires_at stored)%Z with false by (symmetry; lia).
  destruct (String.eqb_spec (code stored) c) as [Heq|_]; [congruence|].
  cbn [negb]. rewrite IH. reflexivity.
Qed.

Lemma wrong_codes_keep_record_witness :
  let st := state_with {["a@x.com" := {| code := "123456"; expires_at := 1000 |}]} in
  let wrong := fun c => request_at "10.0.0.1" (verify_body "a@x.com" c) 0 10 in
  verify_all example_config [wrong "000000"; wrong "000001"; wrong "654321"] st
  = ([Mismatch; Mismatch; Mismatch], st).
Proof.
  intros st wrong.
  change [Mismatch; Mismatch; Mismatch]
    with (repeat Mismatch (length [wrong "000000"; wrong "000001"; wrong "654321"])).
  apply (wrong_codes_keep_record example_config _ st "a@x.com"
           {| code := "123456"; expires_at := 1000 |} eq_refl).
  repeat constructor;
    (eexists; split; [repeat split; try reflexivity; discriminate|];
     split; [discriminate|vm_compute; discriminate]).
Defined.

(** X13. A [/verify-code] request whose JSON body is [null], or whose
    email or code is missing or blank, is refused with status 400 before
    the store is looked at: nothing is deleted, not even a record that has
    expired. *)
Theorem verify_code_blank_refused (cfg : config) (req : request) (st : server_state) :
  Py.strip (json_field req "email") = "" \/ Py.strip (json_field req "code") = "" ->
  snd (verify_code cfg req st) = st /\
  verify_status (fst (verify_code cfg req st)) = 400%Z /\
  (fst (verify_code cfg req st) = VerifyInvalidRequest \/
   fst (verify_code cfg req st) = VerifyMissingFields).
Proof.
  unfold json_field, verify_code. intros Hblank.
  destruct (json req) as [data|]; [|auto].
  destruct (bool_decide _); [auto|].
  destruct Hblank as [-> | ->]; cbn [Py.truthy negb orb]; [auto|].
  rewrite orb_true_r. auto.
Qed.

Lemma verify_code_blank_refused_witness :
  let st := state_with {["a@x.com" := {| code := "123456"; expires_at := 1000 |}]} in
  let req := request_at "10.0.0.1" (verify_body "a@x.com" "   ") 0 5000 in
  verify_code example_config req st = (VerifyMissingFields, st).
Proof.
  intros st req.
  destruct (verify_code_blank_refused example_config req st) as (Hst & _ & [H|H]).
  - right. reflexivity.
  - vm_compute in H. discriminate.
  - rewrite (surjective_pairing (verify_code example_config req st)), Hst, H.
    reflexivity.
Defined.

(** X14. [/verify-code] only ever removes the record of the email it was
    asked about: the cursor of the rotator stays, every other email keeps
    its record, and the record of that email is either left as it was or
    gone; no record is created or rewritten. *)
Theorem verify_code_frame (cfg : config) (req : request) (st : server_state) :
  let st' := snd (verify_code cfg req st) in
  let email := Py.strip (json_field req "email") in
  current_key_index st' = current_key_index st /\
  (forall other, other <> email ->
     verification_codes st' !! other = verification_codes st !! other) /\
  (verification_codes st' !! email = verification_codes st !! email \/
   verification_codes st' !! email = None).
Proof.
  unfold json_field, verify_code.
  destruct (json req) as [data|]; [|cbn; auto].
  destruct (bool_decide _); [cbn; auto|].
  destruct (_ || _); [cbn; auto|].
  destruct (verification_codes st !! _) as [stored|] eqn:Hstored; [|cbn; auto].
  destruct (_ >? _)%Z; [|destruct (negb _); [cbn; auto|]];
    cbn [snd set_verification_codes current_key_index verification_codes];
    (split; [reflexivity|]; split;
     [intros other Hne; apply lookup_delete_ne; congruence
     |right; apply lookup_delete_eq]).
Qed.

(** X15. A [/send-code] request that is rate limited changes nothing that
    any later request can observe: no code is stored or replaced, the
    cursor stays, and every client keeps its last admitted time. *)
Theorem send_code_rate_limited_no_effect (cfg : config) (req : request)
    (choice : nat -> fin 10) (smtp : string -> string -> smtp_result)
    (st st' : server_state) (r : send_response) :
  send_code cfg req choice smtp st = (r, st') ->
  send_status r = 429%Z ->
  verification_codes st' = verification_codes st /\
  current_key_index st' = current_key_index st /\
  forall ip ep, last_time (last_request_time st') ip ep
                = last_time (last_request_time st) ip ep.
Proof.
  intros Hsend Hstatus.
  destruct (send_code_inv cfg _ _ _ _ _ _ Hsend) as (Htbl & Hcur & Hr).
  destruct r; try discriminate. destruct Hr as (Hrej & _ & Hvc).
  split; [exact Hvc|]. split; [exact Hcur|].
  intros ip ep. rewrite Htbl.
  apply (check_rate_limit_rejected_inv req _ _ _ Hrej).
Qed.

Lemma send_code_rate_limited_no_effect_witness :
  let smtp := fun _ _ : string => SmtpSent in
  let choice := fun _ : nat => 1%fin : fin 10 in
  let st := snd (send_code example_config
                   (request_at "10.0.0.1" (send_body "a@x.com") 1700000000 0)
                   choice smtp (state_with ∅)) in
  let req := request_at "10.0.0.1" (send_body "b@x.com") 1700000029 29000000 in
  fst (send_code example_config req choice smtp st)
  = SendRateLimited (inject_Z 30 - (1700000029 - 1700000000)) /\
  verification_codes (snd (send_code example_config req choice smtp st))
  = verification_codes st.
Proof.
  intros smtp choice st req.
  assert (H : send_code example_config req choice smtp st
              = (SendRateLimited (inject_Z 30 - (1700000029 - 1700000000)),
                 snd (send_code example_config req choice smtp st)))
    by (vm_compute; reflexivity).
  split; [rewrite H; reflexivity|].
  exact (proj1 (send_code_rate_limited_no_effect _ _ _ _ _ _ _ H eq_refl)).
Defined.

(** X16. A [/send-code] request that passes the rate limit and is then
    refused for its body (status 400: no email field, a blank email, no
    [@]) stores no code, yet it has used up the client's interval: the
    clock reading of the request is recorded as its last admitted time. *)
Theorem send_code_invalid_uses_window (cfg : config) (req : request)
    (choice : nat -> fin 10) (smtp : string -> string -> smtp_result)
    (st st' : server_state) (r : send_response) :
  send_code cfg req choice smtp st = (r, st') ->
  send_status r = 400%Z ->
  verification_codes st' = verification_codes st /\
  last_time (last_request_time st') (get_client_ip req) "email" = time_time req.
Proof.
  intros Hsend Hstatus.
  destruct (send_code_inv cfg _ _ _ _ _ _ Hsend) as (Htbl & _ & Hr).
  rewrite Htbl.
  destruct r; try discriminate; destruct Hr as (Hadm & Hvc);
    (split; [exact Hvc|]);
    apply (check_rate_limit_allowed_inv req _ _ _ Hadm).
Qed.

Lemma send_code_invalid_uses_window_witness :
  let smtp := fun _ _ : string => SmtpSent in
  let choice := fun _ : nat => 1%fin : fin 10 in
  let bad := request_at "10.0.0.1" (send_body "not-an-address") 1700000000 0 in
  let good := request_at "10.0.0.1" (send_body "a@x.com") 1700000010 10000000 in
  let st := snd (send_code example_config bad choice smtp (state_with ∅)) in
  fst (send_code example_config bad choice smtp (state_with ∅)) = SendInvalidEmail /\
  last_time (last_request_time st) "10.0.0.1" "email" = 1700000000%Q /\
  send_status (fst (send_code example_config good choice smtp st)) = 429%Z.
Proof.
  intros smtp choice bad good st.
  assert (H : send_code example_config bad choice smtp (state_with ∅)
              = (SendInvalidEmail, st)) by (vm_compute; reflexivity).
  split; [rewrite H; reflexivity|]. split.
  - exact (proj2 (send_code_invalid_uses_window _ _ _ _ _ _ _ H eq_refl)).
  - vm_compute. reflexivity.
Defined.

Lemma verify_code_frame_witness :
  let st := state_with (<["b@x.com" := {| code := "222222"; expires_at := 1000 |}]>
                          {["a@x.com" := {| code := "123456"; expires_at := 1000 |}]}) in
  let req := request_at "10.0.0.1" (verify_body "a@x.com" "123456") 0 10 in
  fst (verify_code example_config req st) = Success false /\
  verification_codes (snd (verify_code example_config req st)) !! "b@x.com"
  = Some {| code := "222222"; expires_at := 1000 |}.
Proof.
  intros st req. split; [reflexivity|].
  destruct (verify_code_frame example_config req st) as (_ & Hother & _).
  rewrite (Hother "b@x.com"); [reflexivity|discriminate].
Defined.

(** X17. Once a [/send-code] request of a client got past the rate limit,
    whatever it was then answered, a second request of that client made
    before the interval is over is rate limited and leaves the pending
    codes as they are. *)
Theorem send_code_again_too_soon (cfg : config) (req1 req2 : request)
    (choice1 choice2 : nat -> fin 10)
    (smtp1 smtp2 : string -> string -> smtp_result)
    (st st1 : server_state) (r1 : send_response) :
  send_code cfg req1 choice1 smtp1 st = (r1, st1) ->
  send_status r1 <> 429%Z ->
  get_client_ip req2 = get_client_ip req1 ->
  (time_time req2 - time_time req1 < inject_Z (RATE_LIMIT_EMAIL cfg))%Q ->
  fst (send_code cfg req2 choice2 smtp2 st1)
  = SendRateLimited
      (inject_Z (RATE_LIMIT_EMAIL cfg) - (time_time req2 - time_time req1)) /\
  verification_codes (snd (send_code cfg req2 choice2 smtp2 st1))
  = verification_codes st1.
Proof.
  intros Hsend Hstatus Hip Hgap.
  destruct (send_code_inv cfg _ _ _ _ _ _ Hsend) as (Htbl & _ & Hr).
  assert (Hadm : fst (snd (rate_limit_of req1 st "email" (RATE_LIMIT_EMAIL cfg))) = true).
  { destruct r1; try (destruct Hr as [Hadm _]; exact Hadm).
    cbn in Hstatus. congruence. }
  destruct (check_rate_limit_allowed_inv req1 _ _ _ Hadm) as (_ & Hlast & _).
  fold (rate_limit_of req1 st "email" (RATE_LIMIT_EMAIL cfg)) in Hlast.
  rewrite <- Htbl, <- Hip in Hlast.
  pose proof (check_rate_limit_rejected req2 (last_request_time st1) "email"
                (RATE_LIMIT_EMAIL cfg)) as Hrej.
  cbv zeta in Hrej. rewrite Hlast in Hrej. specialize (Hrej Hgap).
  destruct (send_code_rate_limit cfg req2 choice2 smtp2 st1) as (_ & H2 & _).
  unfold rate_limit_of in H2. rewrite Hrej in H2. cbn [fst snd] in H2.
  rewrite (H2 eq_refl). split; reflexivity.
Qed.

Lemma send_code_again_too_soon_witness :
  let smtp := fun _ _ : string => SmtpError "relay down" in
  let choice := fun _ : nat => 1%fin : fin 10 in
  let req1 := request_at "10.0.0.1" (send_body "a@x.com") 1700000000 0 in
  let req2 := request_at "10.0.0.1" (send_body "a@x.com") 1700000029 29000000 in
  let first := send_code example_config req1 choice smtp (state_with ∅) in
  fst first = SendDeliveryFailure /\
  send_status (fst (send_code example_config req2 choice smtp (snd first))) = 429%Z.
Proof.
  intros smtp choice req1 req2 first. split; [reflexivity|].
  assert (H : send_code example_config req1 choice smtp (state_with ∅)
              = (SendDeliveryFailure, snd first)) by (vm_compute; reflexivity).
  destruct (send_code_again_too_soon example_config req1 req2 choice choice
              smtp smtp _ _ _ H) as [Hr _].
  - discriminate.
  - reflexivity.
  - vm_compute. reflexivity.
  - rewrite Hr. reflexivity.
Defined.



(** ** The failover loop under any upstream *)

Section AnyUpstream.

Variable keys : list string.
Variable message : string.
Variable upstream : nat -> string -> string -> upstream_reply.

(** One pass at attempt [k]: a retried reply leads to the next attempt,
    any other reply ends the loop with its response. *)
Lemma iteration_cases (c k : nat) (ls : loop_state) :
  at_attempt keys c k ls ->
  (k < length keys)%nat ->
  let reply := upstream k (api_key ls) message in
  (retried (length keys) k reply = true /\
   iteration keys message upstream ls = inl (next_attempt keys ls)) \/
  (retried (length keys) k reply = false /\
   iteration keys message upstream ls
   = inr (ending_response reply, set_posted (posted ls ++ [api_key ls]) ls)).
Proof.
  intros Hat Hlt reply.
  destruct (retried (length keys) k reply) eqn:Hretry.
  - left. split; [reflexivity|].
    apply (iteration_retried keys message upstream c k ls Hat Hlt Hretry).
  - right. split; [reflexivity|].
    destruct (rotate_next keys c k ls) as (Hrot & _); [lia|exact Hat|].
    destruct Hat as (Hatt & _ & _ & Hposted).
    assert (Hlen : length (posted ls) = k)
      by (rewrite Hposted; apply rotation_length; lia).
    unfold iteration, on_exception.
    rewrite Hlen, Hrot. cbn [attempt set_posted]. rewrite Hatt.
    fold reply. destruct reply as [status_code text| |e];
      cbn [retried ending_response] in *.
    + apply orb_false_elim in Hretry as [-> Hretry].
      destruct (status_code =? 200)%Z; cbn [negb andb] in *; [|reflexivity].
      destruct text as [t|]; [reflexivity|].
      rewrite bool_decide_eq_true_2 in Hretry by reflexivity.
      cbn [andb] in Hretry. rewrite Hretry. reflexivity.
    + rewrite Hretry. reflexivity.
    + rewrite Hretry. reflexivity.
Qed.

(** The whole loop from attempt [k] on: it stops at the first attempt [n]
    whose reply is not retried, or runs out of attempts. *)
Lemma chat_loop_run (c m k : nat) (ls : loop_state) :
  at_attempt keys c k ls ->
  (k + m = length keys)%nat ->
  exists n ls',
    (k <= n <= length keys)%nat /\
    at_attempt keys c n ls' /\
    (forall i key, (k <= i < n)%nat ->
       keys !! ((c + i) mod length keys)%nat = Some key ->
       retried (length keys) i (upstream i key message) = true) /\
    ((n = length keys /\
      chat_loop keys message upstream ls = (Exhausted, ls')) \/
     ((n < length keys)%nat /\
      retried (length keys) n (upstream n (api_key ls') message) = false /\
      chat_loop keys message upstream ls
      = (ending_response (upstream n (api_key ls') message),
         set_posted (posted ls' ++ [api_key ls']) ls'))).
Proof.
  revert k ls. induction m as [|m IH]; intros k ls Hat Hk.
  - exists k, ls. split; [lia|]. split; [exact Hat|].
    split; [intros i key Hi; lia|].
    left. split; [lia|].
    rewrite chat_loop_body. destruct Hat as (-> & _).
    replace (k <? length keys)%nat with false by (symmetry; apply Nat.ltb_ge; lia).
    reflexivity.
  - assert (Hlt : (k < length keys)%nat) by lia.
    assert (Hloop : chat_loop keys message upstream ls
                    = match iteration keys message upstream ls with
                      | inl ls' => chat_loop keys message upstream ls'
                      | inr r => r
                      end).
    { rewrite (chat_loop_body keys message upstream ls).
      destruct Hat as (-> & _).
      replace (k <? length keys)%nat with true by (symmetry; apply Nat.ltb_lt; lia).
      reflexivity. }
    destruct (iteration_cases c k ls Hat Hlt) as [[Hretry Hbody]|[Hretry Hbody]].
    + destruct (iteration_retried keys message upstream c k ls Hat Hlt Hretry)
        as (_ & Hnext).
      destruct (IH (S k) (next_attempt keys ls) Hnext ltac:(lia))
        as (n & ls' & Hn & Hat' & Hall & Hend).
      exists n, ls'. split; [lia|]. split; [exact Hat'|]. split.
      * intros i key Hi Hkey. destruct (decide (i = k)) as [->|Hne].
        -- destruct Hat as (_ & Hidx & Hk' & _). rewrite Hidx in Hk'.
           assert (key = api_key ls) by congruence. subst key. exact Hretry.
        -- apply Hall; [lia|exact Hkey].
      * rewrite Hloop, Hbody. exact Hend.
    + exists k, ls. split; [lia|]. split; [exact Hat|].
      split; [intros i key Hi; lia|].
      right. split; [exact Hlt|]. split; [exact Hretry|].
      rewrite Hloop, Hbody. reflexivity.
Qed.

Lemma rotation_loaded (c n : nat) : Forall (fun key => key ∈ keys) (rotation keys c n).
Proof.
  unfold rotation. apply Forall_forall. intros key Hin.
  apply list_elem_of_omap in Hin as (j & _ & Hj).
  eapply list_elem_of_lookup_2. exact Hj.
Qed.

End AnyUpstream.

(** [chat_failover] from a valid cursor: the attempts before attempt [n]
    were retried, and either all were, or attempt [n] ended the loop. *)
Lemma chat_failover_run (keys : list string) (message : string)
    (upstream : nat -> string -> string -> upstream_reply) (c : nat) :
  (c < length keys)%nat ->
  exists n key,
    (n <= length keys)%nat /\
    keys !! ((c + n) mod length keys)%nat = Some key /\
    (forall i key', (i < n)%nat ->
       keys !! ((c + i) mod length keys)%nat = Some key' ->
       retried (length keys) i (upstream i key' message) = true) /\
    ((n = length keys /\
      chat_failover keys message upstream c
      = (Exhausted, c, rotation keys c (length keys))) \/
     ((n < length keys)%nat /\
      retried (length keys) n (upstream n key message) = false /\
      chat_failover keys message upstream c
      = (ending_response (upstream n key message),
         ((c + n) mod length keys)%nat, rotation keys c (S n)))).
Proof.
  intros Hc. destruct (lookup_lt_is_Some_2 keys c Hc) as [key0 Hkey0].
  destruct (chat_loop_run keys message upstream c (length keys) 0 _
              (at_attempt_start keys c key0 Hc Hkey0) eq_refl)
    as (n & ls' & Hn & Hat & Hall & Hend).
  pose proof Hat as (Hatt & Hidx & Hkey & Hposted).
  exists n, (api_key ls'). split; [lia|]. split; [rewrite <- Hidx; exact Hkey|].
  split; [intros i key' Hi; apply Hall; lia|].
  unfold chat_failover. rewrite Hkey0.
  destruct Hend as [[Hn' ->]|(Hn' & Hretry & ->)].
  - left. split; [exact Hn'|]. rewrite Hidx, Hposted, Hn'.
    replace (c + length keys)%nat with (c + 1 * length keys)%nat by lia.
    rewrite Nat.Div0.mod_add, Nat.mod_small by exact Hc. reflexivity.
  - right. split; [exact Hn'|]. split; [exact Hretry|].
    cbn [index posted set_posted]. rewrite Hidx, Hposted.
    rewrite (rotation_snoc keys c n (api_key ls')) by (rewrite <- Hidx; exact Hkey).
    reflexivity.
Qed.

(** X19. Whatever the upstream answers, a chat request that finds the
    cursor inside the key list posts at least one and at most N requests,
    where N is the number of keys; the requests carry the keys in rotation
    order starting with the key under the cursor, every one of them a
    loaded key; and the cursor it leaves is inside the key list. *)
Theorem chat_failover_requests (keys : list string) (message : string)
    (upstream : nat -> string -> string -> upstream_reply) (c : nat) :
  (c < length keys)%nat ->
  let cursor := snd (fst (chat_failover keys message upstream c)) in
  let sent := snd (chat_failover keys message upstream c) in
  (1 <= length sent <= length keys)%nat /\
  sent = rotation keys c (length sent) /\
  head sent = keys !! c /\
  Forall (fun key => key ∈ keys) sent /\
  (cursor < length keys)%nat.
Proof.
  intros Hc cursor sent. assert (Hpos : (0 < length keys)%nat) by lia.
  destruct (lookup_lt_is_Some_2 keys c Hc) as [key0 Hkey0].
  assert (Hhead : forall m, (0 < m)%nat -> head (rotation keys c m) = keys !! c).
  { intros [|m] Hm; [lia|]. unfold rotation. cbn [seq omap list_omap].
    rewrite Nat.add_0_r, Nat.mod_small, Hkey0 by exact Hc. reflexivity. }
  destruct (chat_failover_run keys message upstream c Hc)
    as (n & key & Hn & Hkey & _ & [[Hn' Heq]|(Hn' & _ & Heq)]);
    subst cursor sent; rewrite Heq; cbn [fst snd].
  - rewrite rotation_length by exact Hpos.
    split; [lia|]. split; [reflexivity|]. split; [apply Hhead; exact Hpos|].
    split; [apply rotation_loaded|exact Hc].
  - rewrite rotation_length by exact Hpos.
    split; [lia|]. split; [reflexivity|]. split; [apply Hhead; lia|].
    split; [apply rotation_loaded|]. apply Nat.mod_upper_bound. lia.
Qed.

Lemma chat_failover_requests_witness :
  let flaky := fun (n : nat) (key message : string) =>
                 match n with
                 | 0 => TimeoutError
                 | 1 => Reply 200 None
                 | _ => Reply 500 None
                 end%nat in
  chat_failover ["K1"; "K2"; "K3"] "hi" flaky 2
  = (UpstreamOtherFailure, 1%nat, ["K3"; "K1"; "K2"]) /\
  (length (snd (chat_failover ["K1"; "K2"; "K3"] "hi" flaky 2)) <= 3)%nat.
Proof.
  intros flaky. split; [vm_compute; reflexivity|].
  assert (Hc : (2 < length ["K1"; "K2"; "K3"])%nat) by (simpl; lia).
  exact (proj2 (proj1 (chat_failover_requests ["K1"; "K2"; "K3"] "hi" flaky 2 Hc))).
Defined.

(** X20. The response of a chat request is decided by the first reply
    that is not retried: when the attempts before attempt n are retried and
    the reply to attempt n is not, the request ends there with the response
    of that reply, after n + 1 requests and with the cursor on the key of
    attempt n. In particular a status other than 429 and 200 on the first
    attempt ends the request at once, with one request and the cursor
    unmoved. *)
Theorem chat_failover_first_final_reply (keys : list string) (message : string)
    (upstream : nat -> string -> string -> upstream_reply) (c n : nat)
    (key : string) :
  (c < length keys)%nat ->
  (n < length keys)%nat ->
  (forall i key', (i < n)%nat ->
     keys !! ((c + i) mod length keys)%nat = Some key' ->
     retried (length keys) i (upstream i key' message) = true) ->
  keys !! ((c + n) mod length keys)%nat = Some key ->
  retried (length keys) n (upstream n key message) = false ->
  chat_failover keys message upstream c
  = (ending_response (upstream n key message),
     ((c + n) mod length keys)%nat, rotation keys c (S n)) /\
  (forall status_code text,
     n = 0%nat -> upstream 0%nat key message = Reply status_code text ->
     status_code <> 429%Z -> status_code <> 200%Z ->
     chat_failover keys message upstream c = (UpstreamOtherFailure, c, [key])).
Proof.
  intros Hc Hn Hall Hkey Hretry.
  assert (Hmain : chat_failover keys message upstream c
                  = (ending_response (upstream n key message),
                     ((c + n) mod length keys)%nat, rotation keys c (S n))).
  { destruct (chat_failover_retried keys message upstream c n Hc) as (ls & Hat & ->);
      [lia|exact Hall|].
    assert (Hk : api_key ls = key).
    { destruct Hat as (_ & Hidx & Hk & _). rewrite Hidx in Hk. congruence. }
    destruct (iteration_cases keys message upstream c n ls Hat Hn)
      as [[Hr _]|[_ Hbody]]; [rewrite Hk in Hr; congruence|].
    pose proof (chat_loop_final keys message upstream c n ls _ Hat Hn Hbody) as Hfin.
    destruct (chat_loop keys message upstream ls) as [r ls'].
    rewrite Hk in Hfin. exact Hfin. }
  split; [exact Hmain|].
  intros status_code text -> Hreply H429 H200. rewrite Hmain, Hreply.
  cbn [ending_response].
  apply Z.eqb_neq in H429, H200. rewrite H429, H200. cbn [negb].
  rewrite Nat.add_0_r in Hkey |- *. rewrite Nat.mod_small in Hkey |- * by exact Hc.
  unfold rotation. cbn [seq omap list_omap].
  rewrite Nat.add_0_r, Nat.mod_small, Hkey by exact Hc. reflexivity.
Qed.

Lemma chat_failover_first_final_reply_witness :
  let broken := fun (n : nat) (key message : string) => Reply 500 None in
  chat_failover ["K1"; "K2"; "K3"] "hi" broken 1 = (UpstreamOtherFailure, 1%nat, ["K2"]).
Proof.
  intros broken.
  assert (Hc : (1 < length ["K1"; "K2"; "K3"])%nat) by (simpl; lia).
  refine (proj2 (chat_failover_first_final_reply ["K1"; "K2"; "K3"] "hi" broken
                   1 0 "K2" Hc _ _ eq_refl eq_refl) 500%Z None eq_refl eq_refl _ _).
  - simpl. lia.
  - intros i key' Hi. lia.
  - discriminate.
  - discriminate.
Defined.

(** X21. Exhausted is answered only after N requests, the last of which
    was answered with status 429, and it leaves the cursor where the
    request found it. *)
Theorem chat_exhausted_only_after_quota (keys : list string) (message : string)
    (upstream : nat -> string -> string -> upstream_reply) (c : nat) :
  (c < length keys)%nat ->
  fst (fst (chat_failover keys message upstream c)) = Exhausted ->
  chat_failover keys message upstream c
  = (Exhausted, c, rotation keys c (length keys)) /\
  exists key,
    keys !! ((c + (length keys - 1)) mod length keys)%nat = Some key /\
    quota_exhausted (upstream (length keys - 1)%nat key message) = true.
Proof.
  intros Hc Hex.
  destruct (chat_failover_run keys message upstream c Hc)
    as (n & key & Hn & Hkey & Hall & [[Hn' Heq]|(Hn' & Hretry & Heq)]).
  - split; [exact Heq|].
    destruct (lookup_lt_is_Some_2 keys ((c + (length keys - 1)) mod length keys)%nat)
      as [key' Hkey']; [apply Nat.mod_upper_bound; lia|].
    exists key'. split; [exact Hkey'|].
    specialize (Hall (length keys - 1)%nat key' ltac:(lia) Hkey').
    destruct (upstream _ key' message) as [status_code text| |e];
      cbn [retried quota_exhausted] in *;
      rewrite ?Nat.ltb_irrefl, ?andb_false_r, ?orb_false_r in Hall;
      [exact Hall|discriminate|discriminate].
  - exfalso. rewrite Heq in Hex. cbn [fst] in Hex.
    destruct (upstream n key message) as [status_code text| |e];
      cbn [retried ending_response] in *; try discriminate.
    destruct (status_code =? 429)%Z; [discriminate|].
    destruct (negb _); [discriminate|]. destruct text; discriminate.
Qed.

Lemma chat_exhausted_only_after_quota_witness :
  let quota := fun (n : nat) (key message : string) => Reply 429 None in
  chat_failover ["K1"; "K2"] "hi" quota 1 = (Exhausted, 1%nat, ["K2"; "K1"]).
Proof.
  intros quota.
  assert (Hc : (1 < length ["K1"; "K2"])%nat) by (simpl; lia).
  exact (proj1 (chat_exhausted_only_after_quota ["K1"; "K2"] "hi" quota 1 Hc eq_refl)).
Defined.

(** ** What the handlers touch *)

Lemma ending_response_status (r : upstream_reply) :
  chat_status (ending_response r) <> 429%Z /\ chat_status (ending_response r) <> 400%Z.
Proof.
  destruct r as [status_code text| |e]; cbn; try (split; discriminate).
  destruct (status_code =? 429)%Z; [split; discriminate|].
  destruct (negb _); [split; discriminate|].
  destruct text; split; discriminate.
Qed.

Lemma chat_failover_outcome (keys : list string) (message : string)
    (upstream : nat -> string -> string -> upstream_reply) (c : nat) :
  let out := chat_failover keys message upstream c in
  chat_status (fst (fst out)) <> 429%Z /\
  chat_status (fst (fst out)) <> 400%Z /\
  ((c < length keys)%nat -> (snd (fst out) < length keys)%nat).
Proof.
  intros out. subst out.
  destruct (keys !! c) as [key0|] eqn:Hkey0.
  - assert (Hc : (c < length keys)%nat) by (eapply lookup_lt_Some; exact Hkey0).
    destruct (chat_failover_run keys message upstream c Hc)
      as (n & key & _ & _ & _ & [[_ ->]|(Hn & _ & ->)]); cbn [fst snd].
    + repeat split; try discriminate. intros _. exact Hc.
    + destruct (ending_response_status (upstream n key message)) as [H1 H2].
      repeat split; try assumption. intros _. apply Nat.mod_upper_bound. lia.
  - unfold chat_failover. rewrite Hkey0. cbn [fst snd].
    repeat split; try discriminate. auto.
Qed.

Lemma verify_code_cursor (cfg : config) (req : request) (st : server_state) :
  current_key_index (snd (verify_code cfg req st)) = current_key_index st.
Proof.
  unfold verify_code.
  destruct (json req) as [data|]; [|reflexivity].
  destruct (bool_decide _); [reflexivity|].
  destruct (_ || _); [reflexivity|].
  destruct (verification_codes st !! _) as [stored|]; [|reflexivity].
  destruct (_ >? _)%Z; [reflexivity|]. destruct (negb _); reflexivity.
Qed.

(** X22. Every handler keeps the cursor of the rotator inside the key
    list: [/chat] leaves a valid cursor whatever the upstream does, and
    [/send-code], [/verify-code], [/generate-image] and [/health] do not
    move it. *)
Theorem cursor_stays_valid (cfg : config) (req : request) (st : server_state) :
  (current_key_index st < length (API_KEYS cfg))%nat ->
  (forall upstream,
     (current_key_index (snd (chat cfg req upstream st)) < length (API_KEYS cfg))%nat) /\
  (forall choice smtp,
     current_key_index (snd (send_code cfg req choice smtp st)) = current_key_index st) /\
  current_key_index (snd (verify_code cfg req st)) = current_key_index st /\
  (forall upstream,
     current_key_index (snd (generate_image cfg req upstream st))
     = current_key_index st) /\
  current_key_index (snd (health_check cfg st)) = current_key_index st.
Proof.
  intros Hc. split; [|split; [|split; [|split]]].
  - intros upstream. unfold chat.
    destruct (check_rate_limit _ _ _ _) as [tbl [allowed remaining]].
    destruct allowed; cbn [negb]; [|exact Hc].
    destruct (json req) as [data|]; [|exact Hc].
    destruct (_ || _); [exact Hc|]. destruct (negb _); [exact Hc|].
    pose proof (chat_failover_outcome (API_KEYS cfg)
                  (Py.strip (default "" (data !! "message"))) upstream
                  (current_key_index st)) as (_ & _ & Hcur).
    cbn [current_key_index set_last_request_time] in *.
    destruct (chat_failover _ _ _ _) as [[resp current] sent].
    cbn [fst snd] in *. exact (Hcur Hc).
  - intros choice smtp.
    destruct (send_code cfg req choice smtp st) as [r st'] eqn:Hsend.
    exact (proj1 (proj2 (send_code_inv cfg _ _ _ _ _ _ Hsend))).
  - apply verify_code_cursor.
  - intros upstream. unfold generate_image.
    destruct (check_rate_limit _ _ _ _) as [tbl [allowed remaining]].
    destruct allowed; cbn [negb]; [|reflexivity].
    destruct (json req) as [data|]; [|reflexivity].
    destruct (_ || _); [reflexivity|]. destruct (negb _); [reflexivity|].
    destruct (upstream _) as [status_code content| |e]; try reflexivity.
    destruct (_ =? _)%Z; [reflexivity|]. destruct (_ && _); reflexivity.
  - reflexivity.
Qed.

Lemma cursor_stays_valid_witness :
  let quota := fun (n : nat) (key message : string) =>
                 if (n <? 2)%nat then Reply 429 None else Reply 200 (Some "ok") in
  let req := request_at "10.0.0.1" (Some {["message" := "hi"]}) 1700000000 0 in
  let st := set_current_key_index 2 (state_with ∅) in
  (current_key_index (snd (chat example_config req quota st)) < 3)%nat /\
  current_key_index (snd (chat example_config req quota st)) = 1%nat.
Proof.
  intros quota req st.
  assert (Hc : (current_key_index st < length (API_KEYS example_config))%nat)
    by (simpl; lia).
  split; [|vm_compute; reflexivity].
  exact (proj1 (cursor_stays_valid example_config req st Hc) quota).
Defined.

(** X23. Only the two verification endpoints change the pending codes:
    [/chat], [/generate-image] and [/health] leave them as they are,
    whatever the request and the upstream. *)
Theorem codes_untouched_elsewhere (cfg : config) (req : request) (st : server_state) :
  (forall upstream,
     verification_codes (snd (chat cfg req upstream st)) = verification_codes st) /\
  (forall upstream,
     verification_codes (snd (generate_image cfg req upstream st))
     = verification_codes st) /\
  verification_codes (snd (health_check cfg st)) = verification_codes st.
Proof.
  split; [|split; [|reflexivity]].
  - intros upstream. unfold chat.
    destruct (check_rate_limit _ _ _ _) as [tbl [allowed remaining]].
    destruct allowed; cbn [negb]; [|reflexivity].
    destruct (json req) as [data|]; [|reflexivity].
    destruct (_ || _); [reflexivity|]. destruct (negb _); [reflexivity|].
    destruct (chat_failover _ _ _ _) as [[resp current] sent]. reflexivity.
  - intros upstream. unfold generate_image.
    destruct (check_rate_limit _ _ _ _) as [tbl [allowed remaining]].
    destruct allowed; cbn [negb]; [|reflexivity].
    destruct (json req) as [data|]; [|reflexivity].
    destruct (_ || _); [reflexivity|]. destruct (negb _); [reflexivity|].
    destruct (upstream _) as [status_code content| |e]; try reflexivity.
    destruct (_ =? _)%Z; [reflexivity|]. destruct (_ && _); reflexivity.
Qed.

(** X24. A chat request that is answered with status 429 or 400 (rate
    limited, no message, blank message) never reached the upstream: its
    response and the state it leaves are the same for every upstream, and
    the cursor is not moved. *)
Theorem chat_refused_before_upstream (cfg : config) (req : request)
    (upstream : nat -> string -> string -> upstream_reply) (st : server_state) :
  chat_status (fst (chat cfg req upstream st)) = 429%Z \/
  chat_status (fst (chat cfg req upstream st)) = 400%Z ->
  current_key_index (snd (chat cfg req upstream st)) = current_key_index st /\
  forall upstream', chat cfg req upstream' st = chat cfg req upstream st.
Proof.
  unfold chat.
  destruct (check_rate_limit _ _ _ _) as [tbl [allowed remaining]].
  destruct allowed; cbn [negb]; [|auto].
  destruct (json req) as [data|]; [|auto].
  destruct (_ || _); [auto|]. destruct (negb _); [auto|].
  pose proof (chat_failover_outcome (API_KEYS cfg)
                (Py.strip (default "" (data !! "message"))) upstream
                (current_key_index (set_last_request_time tbl st))) as (H1 & H2 & _).
  destruct (chat_failover _ _ _ _) as [[resp current] sent].
  cbn [fst snd] in *. intros [H|H]; contradiction.
Qed.

Lemma chat_refused_before_upstream_witness :
  let up1 := fun (n : nat) (key message : string) => Reply 200 (Some "ok") in
  let up2 := fun (n : nat) (key message : string) => TimeoutError in
  let req := request_at "10.0.0.1" (Some {["message" := "   "]}) 1700000000 0 in
  fst (chat example_config req up1 (state_with ∅)) = ChatEmptyMessage /\
  chat example_config req up2 (state_with ∅) = chat example_config req up1 (state_with ∅).
Proof.
  intros up1 up2 req. split; [vm_compute; reflexivity|].
  apply (chat_refused_before_upstream example_config req up1 (state_with ∅)).
  right. vm_compute. reflexivity.
Defined.

(** X25. [/generate-image] answers with an image exactly when the request
    got past the rate limit, carried a prompt that is not blank, and the
    upstream answered with a status that is not between 400 and 599; the
    image is the content of that reply. *)
Theorem generate_image_ok (cfg : config) (req : request)
    (upstream : string -> image_reply) (st : server_state) (content : string) :
  fst (generate_image cfg req upstream st) = ImageOk content <->
  fst (snd (rate_limit_of req st "image" (RATE_LIMIT_IMAGE cfg))) = true /\
  Py.strip (json_field req "prompt") <> "" /\
  exists status_code,
    upstream (Py.strip (json_field req "prompt")) = ImageReply status_code content /\
    ((status_code < 400)%Z \/ (600 <= status_code)%Z).
Proof.
  unfold generate_image, rate_limit_of, json_field.
  destruct (check_rate_limit _ _ _ _) as [tbl [allowed remaining]]. cbn [fst snd].
  destruct allowed; cbn [negb]; [|split; [discriminate|intros [? _]; discriminate]].
  destruct (json req) as [data|];
    [|split; [discriminate|intros (_ & Hp & _); exfalso; apply Hp; reflexivity]].
  destruct (bool_decide (data = ∅)) eqn:Hempty; cbn [orb].
  { split; [discriminate|]. intros (_ & Hp & _). exfalso. apply Hp.
    apply bool_decide_eq_true_1 in Hempty. subst data.
    rewrite lookup_empty. reflexivity. }
  destruct (bool_decide (data !! "prompt" = None)) eqn:Hmissing.
  { split; [discriminate|]. intros (_ & Hp & _). exfalso. apply Hp.
    apply bool_decide_eq_true_1 in Hmissing. rewrite Hmissing. reflexivity. }
  destruct (Py.strip (default "" (data !! "prompt"))) as [|ch prompt] eqn:Hprompt;
    cbn [Py.truthy negb].
  { split; [discriminate|]. intros (_ & Hp & _). congruence. }
  destruct (upstream _) as [status_code body| |e]; cbn [fst].
  - destruct (status_code =? 503)%Z eqn:H503; cbn [fst].
    + split; [discriminate|]. intros (_ & _ & s & [= <- <-] & Hlt). lia.
    + destruct ((400 <=? status_code) && (status_code <? 600))%Z eqn:Hbad; cbn [fst].
      * split; [discriminate|]. intros (_ & _ & s & [= <- <-] & Hlt). lia.
      * split.
        -- intros [= <-]. split; [reflexivity|]. split; [discriminate|].
           exists status_code. split; [reflexivity|lia].
        -- intros (_ & _ & s & [= <- <-] & _). reflexivity.
  - split; [discriminate|]. intros (_ & _ & s & [=] & _).
  - split; [discriminate|]. intros (_ & _ & s & [=] & _).
Qed.

Lemma generate_image_ok_witness :
  let upstream := fun prompt : string =>
                    if String.eqb prompt "a cat" then ImageReply 200 "PNG" else ImageReply 404 "" in
  let req := request_at "10.0.0.1" (Some {["prompt" := " a cat "]}) 1700000000 0 in
  fst (generate_image example_config req upstream (state_with ∅)) = ImageOk "PNG".
Proof.
  intros upstream req.
  apply (generate_image_ok example_config req upstream (state_with ∅) "PNG").
  split; [vm_compute; reflexivity|]. split; [discriminate|].
  exists 200%Z. split; [reflexivity|lia].
Defined.

(** An upstream status outside the ranges of HTTP, such as 600, counts as
    a success, as [response.ok] has it. *)
Example generate_image_status_600 :
  fst (generate_image example_config
         (request_at "10.0.0.1" (Some {["prompt" := "a cat"]}) 1700000000 0)
         (fun _ => ImageReply 600 "PNG") (state_with ∅))
  = ImageOk "PNG".
Proof. vm_compute. reflexivity. Qed.
